(** * Gaussian elimination with partial pivoting (gauss_elimination_cplus.cpp)

    A shallow embedding of the solver and the properties of its
    specification.  Doubles are IEEE-754 binary64 values as specified by
    [SpecFloat] (53 bits of precision, exponent bound 1024), and every
    operation of the program is rounded to binary64 on its own, to nearest
    with ties to even; the three global buffers [matrix], [B] and [C] are
    the fields of an explicit state that every routine takes and returns. *)

From Stdlib Require Import ZArith Lia Bool String Ascii.
From Stdlib Require Import Floats.SpecFloat.
From stdpp Require Import base list.

(** ** Double precision arithmetic *)

Module Dbl.

Local Open Scope Z_scope.

Definition prec : Z := 53.
Definition emax : Z := 1024.

Definition double : Type := spec_float.

Definition add : double -> double -> double := SFadd prec emax.
Definition sub : double -> double -> double := SFsub prec emax.
Definition mul : double -> double -> double := SFmul prec emax.
Definition div : double -> double -> double := SFdiv prec emax.
Definition neg : double -> double := SFopp.
Definition eqb : double -> double -> bool := SFeqb.
Definition ltb : double -> double -> bool := SFltb.
Definition leb : double -> double -> bool := SFleb.

(** Conversion of a C [int] to [double]; exact for every 32-bit value. *)
Definition of_int (z : Z) : double := binary_normalize prec emax z 0 false.

(** The literals of the program. *)
Definition zero : double := S754_zero false.
Definition one : double := S754_finite false 4503599627370496 (-52).
Definition two : double := S754_finite false 4503599627370496 (-51).
Definition half : double := S754_finite false 4503599627370496 (-53).
Definition mhalf : double := S754_finite true 4503599627370496 (-53).

Definition is_nan (x : double) : bool :=
  match x with S754_nan => true | _ => false end.

#[global] Instance double_inhabited : Inhabited double := populate S754_nan.

End Dbl.

Import Dbl.

(** ** C integers *)

Definition INT_MAX : Z := 2147483647%Z.

(** Two's complement wrap-around of an [int] expression. *)
Definition int_wrap (z : Z) : Z :=
  ((z + 2147483648) mod 4294967296 - 2147483648)%Z.

(** ** Counted loops *)

(** [for (i = lo; i < hi; i++) s = body i s] *)
Definition for_up {S : Type} (lo hi : nat) (body : nat -> S -> S) (s : S) : S :=
  foldl (fun s i => body i s) s (seq lo (hi - lo)).

(** [for (i = hi - 1; i >= lo; i--) s = body i s] *)
Definition for_down {S : Type} (hi lo : nat) (body : nat -> S -> S) (s : S) : S :=
  foldl (fun s i => body i s) s (rev (seq lo (hi - lo))).

(** ** What the program prints, and how a run can stop early *)

Inductive output : Type :=
| MsgNegative (n : Z)         (* "  -s is negative... using %d\n" *)
| MsgSingular                 (* "The matrix is singular\n" *)
| MsgSize (n : Z)             (* "Size: %d rows\n" *)
| MsgTime                     (* "Time: %f seconds\n" *)
| MsgCorrect.                 (* "Correct solution found.\n" *)

Inductive outcome (A : Type) : Type :=
| Done (a : A)
| Exit (out : output) (code : Z)   (* printf then exit(code) *)
| AssertFailed.                    (* a failed assert aborts the process *)

Arguments Done {A} a.
Arguments Exit {A} out code.
Arguments AssertFailed {A}.

Definition bind {A B : Type} (m : outcome A) (k : A -> outcome B) : outcome B :=
  match m with
  | Done a => k a
  | Exit o c => Exit o c
  | AssertFailed => AssertFailed
  end.

#[global] Instance outcome_ret : MRet outcome := fun A a => Done a.
#[global] Instance outcome_bind : MBind outcome := fun A B k m => bind m k.

(** A counted loop whose body may stop the run. *)
Definition for_upM {S : Type} (lo hi : nat) (body : nat -> S -> outcome S) (s : S)
  : outcome S :=
  foldl (fun m i => s ← m; body i s) (Done s) (seq lo (hi - lo)).

(** ** The three global buffers *)

Record state : Type := mkState {
  matrix : list (list double);   (* double **matrix, one list per row pointer *)
  B : list double;               (* double *B *)
  C : list double                (* double *C *)
}.

(** Buffers of dimension [size] whose cells all hold [u]. *)
Definition uniform_buffers (u : double) (size : nat) : state :=
  mkState (replicate size (replicate size u)) (replicate size u) (replicate size u).

(** ** allocate_memory *)

(** [size_t] arithmetic: 64 bits, unsigned.  A double and a pointer take 8
    bytes. *)
Definition size_t_wrap (z : Z) : Z := (z mod 18446744073709551616)%Z.

(** [malloc] as the program sees it: whether its [k]-th call, for that
    many bytes, returns a block, and what cell [i] of that block holds,
    since the cells are not initialised. *)
Record allocator : Type := mkAllocator {
  malloc_ok : nat -> Z -> bool;
  junk : nat -> nat -> double
}.

(** [size * sizeof(double)], and the same number of bytes for the [size]
    row pointers: [size] is converted to [size_t] before the product. *)
Definition vector_bytes (size : Z) : Z :=
  size_t_wrap (size_t_wrap size * 8).

(** [size*size*sizeof(double)]: the product [size*size] is an [int]
    product, converted to [size_t] afterwards. *)
Definition matrix_bytes (size : Z) : Z :=
  size_t_wrap (size_t_wrap (int_wrap (size * size)) * 8).

(** The [len] doubles at offset [off] of the block of call [k], as far as
    they lie within the [cells] doubles of that block; what lies beyond a
    block is not part of the buffers. *)
Definition block_row (al : allocator) (k cells off len : nat) : list double :=
  (fun j => junk al k (off + j)) <$> seq 0 (len `min` (cells - off)).

(** The buffers once the four blocks are there: [matrix[i] = tmp] with
    [tmp] advancing by [size] doubles hands every row pointer its own slice
    of the block, so the array of row pointers is a list of disjoint rows
    and exchanging two pointers exchanges two elements of that list. *)
Definition allocated_buffers (al : allocator) (size : Z) : state :=
  let n := Z.to_nat size in
  mkState
    ((fun i => block_row al 1 (Z.to_nat (matrix_bytes size / 8)) (i * n) n)
       <$> seq 0 n)
    (block_row al 2 (Z.to_nat (vector_bytes size / 8)) 0 n)
    (block_row al 3 (Z.to_nat (vector_bytes size / 8)) 0 n).

Definition allocate_memory (al : allocator) (size : Z) : outcome state :=
  if negb (malloc_ok al 0 (vector_bytes size)) then AssertFailed  (* matrix *)
  else if negb (malloc_ok al 1 (matrix_bytes size)) then AssertFailed  (* tmp *)
  else if negb (malloc_ok al 2 (vector_bytes size)) then AssertFailed  (* B *)
  else if negb (malloc_ok al 3 (vector_bytes size)) then AssertFailed  (* C *)
  else Done (allocated_buffers al size).

(** Whether the four calls of [malloc] return a block. *)
Definition mallocs_succeed (al : allocator) (size : Z) : bool :=
  malloc_ok al 0 (vector_bytes size) && malloc_ok al 1 (matrix_bytes size) &&
  malloc_ok al 2 (vector_bytes size) && malloc_ok al 3 (vector_bytes size).

(** An allocator that always returns a block, with [u] in every cell. *)
Definition generous (u : double) : allocator :=
  mkAllocator (fun _ _ => true) (fun _ _ => u).

(** An allocator that has no block of [limit] bytes or more. *)
Definition bounded_allocator (limit : Z) (u : double) : allocator :=
  mkAllocator (fun _ bytes => (bytes <? limit)%Z) (fun _ _ => u).

(** Every buffer has the dimension [n]. *)
Definition wf (n : nat) (st : state) : Prop :=
  length (matrix st) = n /\
  (forall i row, matrix st !! i = Some row -> length row = n) /\
  length (B st) = n /\
  length (C st) = n.

(** [matrix[i][j]] *)
Definition mget (st : state) (i j : nat) : double := (matrix st !!! i) !!! j.
(** [B[i]] and [C[i]] *)
Definition bget (st : state) (i : nat) : double := B st !!! i.
Definition cget (st : state) (i : nat) : double := C st !!! i.

(** [matrix[i][j] = v] *)
Definition mset (i j : nat) (v : double) (st : state) : state :=
  mkState (<[i := <[j := v]> (matrix st !!! i)]> (matrix st)) (B st) (C st).
(** [B[i] = v] and [C[i] = v] *)
Definition bset (i : nat) (v : double) (st : state) : state :=
  mkState (matrix st) (<[i := v]> (B st)) (C st).
Definition cset (i : nat) (v : double) (st : state) : state :=
  mkState (matrix st) (B st) (<[i := v]> (C st)).

(** ** The helper macros *)

(** [#define ABS(a) (((a) > 0) ? (a) : -(a))] *)
Definition ABS (a : double) : double := if ltb (of_int 0%Z) a then a else neg a.

(** [#define PSWAP(a, b) { double *tmp; tmp = a; a = b; b = tmp; }] on
    [matrix[a]] and [matrix[b]] *)
Definition PSWAP (a b : nat) (m : list (list double)) : list (list double) :=
  let tmp := m !!! a in
  let m := <[a := m !!! b]> m in
  <[b := tmp]> m.

(** [#define DSWAP(a, b) { double tmp; tmp = a; a = b; b = tmp; }] on
    [B[a]] and [B[b]] *)
Definition DSWAP (a b : nat) (v : list double) : list double :=
  let tmp := v !!! a in
  let v := <[a := v !!! b]> v in
  <[b := tmp]> v.

(** The row exchange of [getPivot]: the matrix rows and the right-hand-side
    entries at the same two indices. *)
Definition swap_rows (a b : nat) (st : state) : state :=
  mkState (PSWAP a b (matrix st)) (DSWAP a b (B st)) (C st).

(** ** initMatrix *)

Definition init_entry (i j : nat) : double :=
  of_int (if j <? i
          then int_wrap (2 * int_wrap (Z.of_nat j + 1))%Z
          else int_wrap (2 * int_wrap (Z.of_nat i + 1))%Z).

Definition initMatrix (nsize : nat) (st : state) : state :=
  for_up 0 nsize (fun i st =>
    let st := for_up 0 nsize (fun j st => mset i j (init_entry i j) st) st in
    bset i (of_int (Z.of_nat i)) st) st.

(** ** getPivot *)

(** The scan for the biggest value of the column: the pair [(big, irow)]. *)
Definition pivot_scan (nsize currow : nat) (st : state) : double * nat :=
  for_up (currow + 1) nsize (fun i '(big, irow) =>
    let tmp := ABS (mget st i currow) in
    if ltb big tmp then (tmp, i) else (big, irow))
    (ABS (mget st currow currow), currow).

(** The normalisation of the pivot row. *)
Definition normalize (nsize currow : nat) (st : state) : state :=
  let pivotVal := mget st currow currow in
  if negb (eqb pivotVal one) then
    let st := mset currow currow one st in
    let st := for_up (currow + 1) nsize (fun i st =>
                mset currow i (div (mget st currow i) pivotVal) st) st in
    bset currow (div (bget st currow) pivotVal) st
  else st.

Definition getPivot (nsize currow : nat) (st : state) : outcome state :=
  let '(big, irow) := pivot_scan nsize currow st in
  if eqb big zero then Exit MsgSingular (-1)%Z
  else
    let st := if negb (irow =? currow) then swap_rows irow currow st else st in
    Done (normalize nsize currow st).

(** ** computeGauss *)

(** The body of the loop over the rows [j] below the pivot row [i]. *)
Definition eliminate_row (nsize i j : nat) (st : state) : state :=
  let pivotVal := mget st j i in
  let st := mset j i zero st in
  let st := for_up (i + 1) nsize (fun k st =>
              mset j k (sub (mget st j k) (mul pivotVal (mget st i k))) st) st in
  bset j (sub (bget st j) (mul pivotVal (bget st i))) st.

Definition eliminate (nsize i : nat) (st : state) : state :=
  for_up (i + 1) nsize (eliminate_row nsize i) st.

Definition gauss_step (nsize i : nat) (st : state) : outcome state :=
  st ← getPivot nsize i st;
  Done (eliminate nsize i st).

Definition computeGauss (nsize : nat) (st : state) : outcome state :=
  for_upM 0 nsize (gauss_step nsize) st.

(** ** solveGauss *)

Definition solve_row (nsize row : nat) (st : state) : state :=
  let st := cset row (bget st row) st in
  for_down nsize (row + 1) (fun col st =>
    cset row (sub (cget st row) (mul (mget st row col) (cget st col))) st) st.

Definition solveGauss (nsize : nat) (st : state) : state :=
  let st := cset (nsize - 1) (bget st (nsize - 1)) st in
  for_down (nsize - 1) 0 (solve_row nsize) st.

(** ** main *)

(** What one call of [getopt(argc, argv, "s:")] returns together with
    [optarg]: the option [s] with its argument, or any other character
    (['?'] for an unrecognised flag or a missing argument). *)
Inductive getopt_result : Type :=
| Opt_s (optarg : string)
| Opt_other (c : ascii).

Section Main.

(** [atoi] of the C library, with its [int] result. *)
Variable atoi : string -> Z.

(** The [while ((i = getopt(...)) != -1) switch (i)] loop on the state
    [(nsize, printed)]. *)
Definition parse_option (r : getopt_result) (s : Z * list output)
  : outcome (Z * list output) :=
  let '(nsize, out) := s in
  match r with
  | Opt_s optarg =>
      let s := atoi optarg in
      if (0 <? s)%Z then Done (s, out)
      else Done (nsize, out ++ [MsgNegative nsize])
  | Opt_other _ => AssertFailed            (* assert(0) *)
  end.

Definition parse_args (opts : list getopt_result) : outcome (Z * list output) :=
  foldl (fun m r => s ← m; parse_option r s) (Done (1024%Z, [])) opts.

(** The verification loop after the solve. *)
Definition verify (nsize : nat) (st : state) : outcome state :=
  for_upM 0 nsize (fun n st =>
    if n =? 0 then
      if eqb (cget st n) mhalf then Done st else AssertFailed
    else if n =? nsize - 1 then
      if eqb (cget st n) half then Done st else AssertFailed
    else
      if eqb (cget st n) (of_int 0%Z) then Done st else AssertFailed) st.

(** [main] from the parsed options on: the final buffers and everything
    printed, or the way the run stopped.  [al] is the [malloc] of the
    run. *)
Definition main (al : allocator) (opts : list getopt_result)
  : outcome (state * list output) :=
  '(nsize, out) ← parse_args opts;
  let n := Z.to_nat nsize in
  st ← allocate_memory al nsize;
  let st := initMatrix n st in
  st ← computeGauss n st;
  let st := solveGauss n st in
  let out := out ++ [MsgSize nsize; MsgTime] in
  st ← verify n st;
  Done (st, out ++ [MsgCorrect]).

End Main.

(** ** Back-substitution, as the specification words it *)

(** The columns right of [row], from [n - 1] down to [row + 1]. *)
Definition cols_down (n row : nat) : list nat :=
  rev (seq (row + 1) (n - (row + 1))).

(** [b[row]] with [A[row][col] * x[col]] subtracted for each column from
    [n - 1] down to [row + 1], one subtraction after the other. *)
Definition back_sub_row (st : state) (x : list double) (n row : nat) : double :=
  foldl (fun acc col => sub acc (mul (mget st row col) (x !!! col)))
        (bget st row) (cols_down n row).

(** The sum of the products [A[row][col] * x[col]] over the columns right
    of [row], accumulated in double precision from [0.0]. *)
Definition row_sum (st : state) (x : list double) (n row : nat) : double :=
  foldl (fun acc col => add acc (mul (mget st row col) (x !!! col)))
        zero (cols_down n row).

(** The closed form [b[row] - sum over col > row of A[row][col] * x[col]]. *)
Definition closed_form_row (st : state) (x : list double) (n row : nat) : double :=
  sub (bget st row) (row_sum st x n row).

(** A boolean check of [wf]. *)
Definition wfb (n : nat) (st : state) : bool :=
  (length (matrix st) =? n) &&
  forallb (fun row => length row =? n) (matrix st) &&
  (length (B st) =? n) && (length (C st) =? n).

(** An upper-triangular system with unit diagonal on which the order of
    the roundings shows: [b[0] = 2^54] and two products equal to [1.0]. *)
Definition rounding_state : state :=
  mkState [[one; one; one]; [zero; one; zero]; [zero; zero; one]]
          [S754_finite false 4503599627370496 2; one; one]
          [zero; zero; zero].

(** ** Elimination, cell by cell *)

(** What one cell of row [j] holds once the columns below [hi] of row
    [j] have been reduced with the pivot row [i], in terms of the state
    [st] before. *)
Definition reduced_cell (st : state) (i j c : nat) (hi : nat) : double :=
  if decide (c = i) then zero
  else if decide (i < c < hi)
       then sub (mget st j c) (mul (mget st j i) (mget st i c))
       else mget st j c.

(** ** Pivot selection, as the specification words it *)

(** The biggest value found by the scan of [getPivot] and the row it
    selects. *)
Definition pivot_big (n k : nat) (st : state) : double := fst (pivot_scan n k st).
Definition pivot_row (n k : nat) (st : state) : nat := snd (pivot_scan n k st).

(** Row [r] holds the maximum absolute value of column [k] among the rows
    [k..n-1], and is the first row that does. *)
Definition selects_max_abs (n k : nat) (st : state) (r : nat) : Prop :=
  k <= r < n /\
  (forall i, k <= i < n ->
     leb (SFabs (mget st i k)) (SFabs (mget st r k)) = true) /\
  (forall i, k <= i < r ->
     ltb (SFabs (mget st i k)) (SFabs (mget st r k)) = true).

(** Row [r] holds the unique maximum absolute value of column [k]. *)
Definition unique_max_abs (n k : nat) (st : state) (r : nat) : Prop :=
  k <= r < n /\
  forall i, k <= i < n -> i <> r ->
    ltb (SFabs (mget st i k)) (SFabs (mget st r k)) = true.

(** No entry of column [k] in the rows [k..n-1] is a NaN. *)
Definition column_no_nan (n k : nat) (st : state) : Prop :=
  forall i, k <= i < n -> is_nan (mget st i k) = false.

(** Every entry of column [k] in the rows [k..n-1] is a zero. *)
Definition column_zero (n k : nat) (st : state) : Prop :=
  forall i, k <= i < n -> eqb (mget st i k) zero = true.

(** The state [getPivot] normalises: the rows [k] and [pivot_row]
    exchanged when they differ. *)
Definition pivot_swap (n k : nat) (st : state) : state :=
  if negb (pivot_row n k st =? k) then swap_rows (pivot_row n k st) k st else st.

(** A value of the pivot row after the normalisation by [pivotVal]. *)
Definition norm_val (pivotVal x : double) : double :=
  if negb (eqb pivotVal one) then div x pivotVal else x.

(** A column with a NaN on the diagonal and a [1.0] below it. *)
Definition nan_state : state :=
  mkState [[S754_nan; zero]; [one; zero]] [zero; zero] [zero; zero].

(** The exchange of the indices [a] and [b]. *)
Definition transpose (a b i : nat) : nat :=
  if decide (i = b) then a else if decide (i = a) then b else i.

(** ** Elimination followed by back-substitution on a given system *)

Definition solve (n : nat) (st : state) : outcome state :=
  st ← computeGauss n st;
  Done (solveGauss n st).

(** The full pipeline of the spec on allocated buffers: initialisation,
    elimination, back-substitution. *)
Definition pipeline (n : nat) (st : state) : outcome state :=
  solve n (initMatrix n st).

(** The state of [computeGauss] before step [k]: the steps [0..k-1] done. *)
Definition gauss_upto (n k : nat) (st : state) : outcome state :=
  for_upM 0 k (gauss_step n) st.

(** The matrix is upper-triangular with unit diagonal in its first [k]
    columns. *)
Definition triangular_upto (n k : nat) (st : state) : Prop :=
  (forall r, r < k -> mget st r r = one) /\
  (forall r c, c < k -> c < r < n -> mget st r c = zero).

(** A singular system: two equal rows. *)
Definition singular_state : state :=
  mkState [[one; one]; [one; one]] [one; two] [zero; zero].

(** An [atoi] for the examples: ["5"] reads as [5], anything else as [0]. *)
Definition atoi_five (s : string) : Z :=
  if String.eqb s "5" then 5%Z else 0%Z.

(** ** Integers as doubles *)

(** [p] shifted left by [k] bits. *)
Definition shl_nat (k : nat) (p : positive) : positive := Nat.iter k xO p.

(** The binary64 representation of the positive integer [p < 2^53]. *)
Definition canon (p : positive) : double :=
  S754_finite false
    (shl_nat (Z.to_nat (53 - Zpos (digits2_pos p))) p)
    (Zpos (digits2_pos p) - 53).

(** ** The test system and its solution *)

(** The value the verification loop of [main] expects in [C[i]]. *)
Definition expected (n i : nat) : double :=
  if i =? 0 then mhalf else if i =? n - 1 then half else zero.

(** The right-hand side of a row not yet reduced, before step [k]. *)
Definition pending_rhs (k r : nat) : double :=
  of_int (if k =? 0 then Z.of_nat r else (Z.of_nat r - Z.of_nat k + 1)%Z).

(** The test system before step [k]: the rows above [k] are final, with
    ones from the diagonal on, and the rows from [k] on still hold
    integers. *)
Definition reduced_upto (n k : nat) (st : state) : Prop :=
  wf n st /\
  (forall r c, r < k -> r <= c < n -> mget st r c = one) /\
  (forall r, r < k -> bget st r = if r =? 0 then zero else half) /\
  (forall r c, k <= r < n -> k <= c < n ->
     mget st r c = of_int (2 * (Z.of_nat (r `min` c) - Z.of_nat k + 1))%Z) /\
  (forall r, k <= r < n -> bget st r = pending_rhs k r).


(** ** Notions for the further properties *)

(** The state [st] with [c] as its solution buffer. *)
Definition with_C (c : list double) (st : state) : state :=
  mkState (matrix st) (B st) c.

(** The equations of the system: each row with its right-hand side. *)
Definition equations (st : state) : list (list double * double) :=
  zip (matrix st) (B st).

(** Whether [C] holds the expected solution, compared as [==] compares. *)
Definition solution_ok (n : nat) (st : state) : bool :=
  forallb (fun i => eqb (cget st i) (expected n i)) (seq 0 n).

(** The values [atoi] reads from the arguments of the [-s] flags. *)
Definition sizes (atoi : string -> Z) (args : list string) : list Z :=
  atoi <$> args.

(** * Properties *)

(** ** Counted loops *)

Section Loops.

Context {S : Type}.

Lemma for_up_nil lo hi (body : nat -> S -> S) s :
  hi <= lo -> for_up lo hi body s = s.
Proof. intros H. unfold for_up. by replace (hi - lo) with 0 by lia. Qed.

Lemma for_up_last lo hi (body : nat -> S -> S) s :
  lo <= hi -> for_up lo (Datatypes.S hi) body s = body hi (for_up lo hi body s).
Proof.
  intros H. unfold for_up.
  replace (Datatypes.S hi - lo) with (Datatypes.S (hi - lo)) by lia.
  rewrite seq_S, foldl_snoc. by replace (lo + (hi - lo)) with hi by lia.
Qed.

(** The invariant rule: [P i s] holds of the state before the iteration
    for [i]. *)
Lemma for_up_ind (P : nat -> S -> Prop) lo hi (body : nat -> S -> S) s :
  lo <= hi ->
  P lo s ->
  (forall i s, lo <= i < hi -> P i s -> P (Datatypes.S i) (body i s)) ->
  P hi (for_up lo hi body s).
Proof.
  intros Hle H0 Hstep. induction Hle as [|hi Hle IH].
  - by rewrite for_up_nil.
  - rewrite for_up_last by done. apply Hstep; [lia|].
    apply IH. intros i s' Hi. apply Hstep. lia.
Qed.

Lemma for_down_nil hi lo (body : nat -> S -> S) s :
  hi <= lo -> for_down hi lo body s = s.
Proof. intros H. unfold for_down. by replace (hi - lo) with 0 by lia. Qed.

Lemma for_down_last hi lo (body : nat -> S -> S) s :
  lo < hi ->
  for_down hi lo body s = body lo (for_down hi (Datatypes.S lo) body s).
Proof.
  intros H. unfold for_down.
  replace (hi - lo) with (Datatypes.S (hi - Datatypes.S lo)) by lia.
  simpl. by rewrite foldl_snoc.
Qed.

(** The invariant rule for a descending loop: [P i s] holds once every
    index from [i] upwards has been handled. *)
Lemma for_down_ind (P : nat -> S -> Prop) hi lo (body : nat -> S -> S) s :
  lo <= hi ->
  P hi s ->
  (forall i s, lo <= i < hi -> P (Datatypes.S i) s -> P i (body i s)) ->
  P lo (for_down hi lo body s).
Proof.
  intros Hle H0 Hstep.
  remember (hi - lo) as d eqn:Hd. revert lo Hle Hd Hstep.
  induction d as [|d IH]; intros lo Hle Hd Hstep.
  - rewrite for_down_nil by lia. by replace lo with hi by lia.
  - rewrite for_down_last by lia. apply Hstep; [lia|].
    apply IH; [lia | lia |]. intros i s' Hi. apply Hstep. lia.
Qed.

Lemma bind_not_done_foldl {T : Type} (f : T -> S -> outcome S) (m : outcome S) l :
  (forall s, m <> Done s) -> foldl (fun m i => s ← m; f i s) m l = m.
Proof.
  revert m. induction l as [|x l IH]; intros m Hm; [done|]. simpl.
  destruct m as [s| |]; [by destruct (Hm s) | apply IH | apply IH]; done.
Qed.

Lemma for_upM_nil lo hi (body : nat -> S -> outcome S) s :
  hi <= lo -> for_upM lo hi body s = Done s.
Proof. intros H. unfold for_upM. by replace (hi - lo) with 0 by lia. Qed.

Lemma for_upM_last lo hi (body : nat -> S -> outcome S) s :
  lo <= hi ->
  for_upM lo (Datatypes.S hi) body s = (s' ← for_upM lo hi body s; body hi s').
Proof.
  intros H. unfold for_upM.
  replace (Datatypes.S hi - lo) with (Datatypes.S (hi - lo)) by lia.
  rewrite seq_S, foldl_snoc. by replace (lo + (hi - lo)) with hi by lia.
Qed.

Lemma for_upM_first lo hi (body : nat -> S -> outcome S) s :
  lo < hi ->
  for_upM lo hi body s = (s' ← body lo s; for_upM (Datatypes.S lo) hi body s').
Proof.
  intros H. unfold for_upM.
  replace (hi - lo) with (Datatypes.S (hi - Datatypes.S lo)) by lia. simpl.
  destruct (body lo s) as [s'| |] eqn:E; [done | |];
    by rewrite bind_not_done_foldl.
Qed.

(** A loop whose iterations all complete carries the invariant through. *)
Lemma for_upM_ind (P : nat -> S -> Prop) lo hi (body : nat -> S -> outcome S) s s' :
  lo <= hi ->
  P lo s ->
  (forall i s s', lo <= i < hi -> P i s -> body i s = Done s' ->
                  P (Datatypes.S i) s') ->
  for_upM lo hi body s = Done s' ->
  P hi s'.
Proof.
  intros Hle H0 Hstep. revert s'. induction Hle as [|hi Hle IH]; intros s'.
  - rewrite for_upM_nil by done. by intros [= <-].
  - rewrite for_upM_last by done.
    destruct (for_upM lo hi body s) as [s1| |] eqn:E; [|done..].
    intros Hb. apply (Hstep hi s1); [lia | | done].
    apply IH; [|done]. intros i t t' Hi. apply Hstep. lia.
Qed.

(** The run of a loop up to [mid], followed by the rest. *)
Lemma for_upM_split lo mid hi (body : nat -> S -> outcome S) s :
  lo <= mid <= hi ->
  for_upM lo hi body s = (s' ← for_upM lo mid body s; for_upM mid hi body s').
Proof.
  intros [H1 H2]. induction H2 as [|hi H2 IH].
  - destruct (for_upM lo mid body s) as [s'| |] eqn:E; [|done..].
    simpl. by rewrite for_upM_nil.
  - rewrite for_upM_last by lia. rewrite IH.
    destruct (for_upM lo mid body s) as [s'| |]; [|done..].
    simpl. by rewrite for_upM_last.
Qed.

(** A loop whose iterations complete under the invariant completes. *)
Lemma for_upM_total (P : nat -> S -> Prop) lo hi (body : nat -> S -> outcome S) s :
  lo <= hi ->
  P lo s ->
  (forall i s, lo <= i < hi -> P i s ->
               exists s', body i s = Done s' /\ P (Datatypes.S i) s') ->
  exists s', for_upM lo hi body s = Done s' /\ P hi s'.
Proof.
  intros Hle H0 Hstep. induction Hle as [|hi Hle IH].
  - exists s. by rewrite for_upM_nil.
  - destruct IH as (s1 & Hs1 & HP). { intros i t Hi. apply Hstep. lia. }
    destruct (Hstep hi s1) as (s2 & Hs2 & HP2); [lia | done |].
    exists s2. rewrite for_upM_last by done. by rewrite Hs1.
Qed.

End Loops.

(** ** Reads and writes of the buffers *)

Lemma wf_row n st i : wf n st -> i < n -> length (matrix st !!! i) = n.
Proof.
  intros (Hm & Hr & _) Hi. apply (Hr i).
  apply list_lookup_lookup_total_lt. lia.
Qed.

Lemma wf_mset n i j v st : wf n st -> wf n (mset i j v st).
Proof.
  intros (Hm & Hr & Hb & Hc). unfold wf, mset. simpl.
  rewrite length_insert. repeat split; try done.
  intros i' row [[-> [<- Hi]]|[_ H]]%list_lookup_insert_Some.
  - rewrite length_insert. apply (Hr i'). by apply list_lookup_lookup_total_lt.
  - by apply (Hr i').
Qed.

Lemma wf_bset n i v st : wf n st -> wf n (bset i v st).
Proof.
  intros (Hm & Hr & Hb & Hc). unfold wf, bset. simpl.
  by rewrite length_insert.
Qed.

Lemma wf_cset n i v st : wf n st -> wf n (cset i v st).
Proof.
  intros (Hm & Hr & Hb & Hc). unfold wf, cset. simpl.
  by rewrite length_insert.
Qed.

Lemma wf_uniform_buffers u n : wf n (uniform_buffers u n).
Proof.
  unfold wf, uniform_buffers. simpl. rewrite !length_replicate.
  repeat split. intros i row [-> _]%lookup_replicate. apply length_replicate.
Qed.

Lemma mget_mset n st i j v i' j' :
  wf n st -> i < n -> j < n ->
  mget (mset i j v st) i' j' =
  if decide (i = i' /\ j = j') then v else mget st i' j'.
Proof.
  intros Hwf Hi Hj. pose proof (wf_row n st i Hwf Hi) as Hrow.
  destruct Hwf as (Hm & _). unfold mget, mset. simpl.
  destruct (decide (i = i')) as [<-|Hne].
  - rewrite list_lookup_total_insert_eq by lia.
    destruct (decide (j = j')) as [<-|Hnj].
    + rewrite list_lookup_total_insert_eq by lia.
      by rewrite decide_True.
    + rewrite list_lookup_total_insert_ne by done.
      rewrite decide_False; [done|]. intros [_ ?]. done.
  - rewrite list_lookup_total_insert_ne by done.
    rewrite decide_False; [done|]. intros [? _]. done.
Qed.

Lemma bget_bset n st i v i' :
  wf n st -> i < n ->
  bget (bset i v st) i' = if decide (i = i') then v else bget st i'.
Proof.
  intros (_ & _ & Hb & _) Hi. unfold bget, bset. simpl.
  destruct (decide (i = i')) as [<-|Hne].
  - apply list_lookup_total_insert_eq. lia.
  - by apply list_lookup_total_insert_ne.
Qed.

Lemma cget_cset n st i v i' :
  wf n st -> i < n ->
  cget (cset i v st) i' = if decide (i = i') then v else cget st i'.
Proof.
  intros (_ & _ & _ & Hc) Hi. unfold cget, cset. simpl.
  destruct (decide (i = i')) as [<-|Hne].
  - apply list_lookup_total_insert_eq. lia.
  - by apply list_lookup_total_insert_ne.
Qed.

(** ** The row exchange *)

Lemma exchange_length {A} `{!Inhabited A} (a b : nat) (l : list A) :
  length (<[b := l !!! a]> (<[a := l !!! b]> l)) = length l.
Proof. by rewrite !length_insert. Qed.

Lemma exchange_lookup {A} `{!Inhabited A} (a b i : nat) (l : list A) :
  a < length l -> b < length l ->
  <[b := l !!! a]> (<[a := l !!! b]> l) !!! i =
  if decide (i = b) then l !!! a else if decide (i = a) then l !!! b else l !!! i.
Proof.
  intros Ha Hb. destruct (decide (i = b)) as [->|Hib].
  - rewrite list_lookup_total_insert_eq; [done|]. by rewrite length_insert.
  - rewrite list_lookup_total_insert_ne by done.
    destruct (decide (i = a)) as [->|Hia].
    + by rewrite list_lookup_total_insert_eq.
    + by rewrite list_lookup_total_insert_ne.
Qed.

Lemma exchange_twice {A} `{!Inhabited A} (a b : nat) (l : list A) :
  a < length l -> b < length l ->
  let l' := <[b := l !!! a]> (<[a := l !!! b]> l) in
  <[b := l' !!! a]> (<[a := l' !!! b]> l') = l.
Proof.
  intros Ha Hb l'.
  assert (Hlen : length l' = length l) by apply exchange_length.
  apply (list_eq_same_length _ _ (length l)); [done | |].
  { by rewrite exchange_length. }
  intros i x y Hi Hx Hy.
  apply list_lookup_total_correct in Hx, Hy. subst x y.
  rewrite exchange_lookup by lia. subst l'.
  rewrite !exchange_lookup by lia.
  repeat case_decide; subst; done.
Qed.

Lemma wf_swap_rows n a b st : wf n st -> a < n -> b < n -> wf n (swap_rows a b st).
Proof.
  intros Hwf Ha Hb. pose proof Hwf as (Hm & Hr & HB & Hc).
  unfold wf, swap_rows, PSWAP, DSWAP. simpl.
  rewrite !exchange_length. repeat split; try done.
  intros i row Hrow.
  assert (Hi : i < n).
  { apply lookup_lt_Some in Hrow. rewrite exchange_length in Hrow. lia. }
  apply list_lookup_total_correct in Hrow. subst row.
  rewrite exchange_lookup by lia.
  repeat case_decide; by apply wf_row.
Qed.

Lemma mget_swap_rows n a b st i j :
  wf n st -> a < n -> b < n ->
  mget (swap_rows a b st) i j =
  mget st (if decide (i = b) then a else if decide (i = a) then b else i) j.
Proof.
  intros (Hm & _) Ha Hb. unfold mget, swap_rows, PSWAP. simpl.
  rewrite exchange_lookup by lia. by repeat case_decide.
Qed.

Lemma bget_swap_rows n a b st i :
  wf n st -> a < n -> b < n ->
  bget (swap_rows a b st) i =
  bget st (if decide (i = b) then a else if decide (i = a) then b else i).
Proof.
  intros (_ & _ & HB & _) Ha Hb. unfold bget, swap_rows, DSWAP. simpl.
  rewrite exchange_lookup by lia. by repeat case_decide.
Qed.

(** C9. Row swapping is an involution: exchanging the matrix rows [a] and
    [b] together with the right-hand-side entries [a] and [b] twice gives
    back the state the first exchange started from, cell for cell. *)
Theorem swap_rows_involutive n a b st :
  wf n st -> a < n -> b < n ->
  swap_rows a b (swap_rows a b st) = st.
Proof.
  intros (Hm & _ & HB & _) Ha Hb. destruct st as [m v c].
  unfold swap_rows, PSWAP, DSWAP. simpl in *. f_equal.
  - apply exchange_twice; lia.
  - apply exchange_twice; lia.
Qed.

Lemma swap_rows_involutive_witness :
  let st := mkState [[one; two]; [half; zero]] [one; mhalf] [zero; zero] in
  swap_rows 0 1 st <> st /\ swap_rows 0 1 (swap_rows 0 1 st) = st.
Proof.
  split; [discriminate|].
  apply (swap_rows_involutive 2); [|lia..].
  unfold wf. simpl. repeat split.
  intros [|[|i]] row; simpl; intros [= <-]; reflexivity.
Defined.

Lemma wfb_wf n st : wfb n st = true -> wf n st.
Proof.
  unfold wfb, wf.
  intros [[[Hm Hr]%andb_prop HB]%andb_prop Hc]%andb_prop.
  apply Nat.eqb_eq in Hm, HB, Hc. repeat split; try done.
  intros i row Hrow. rewrite forallb_forall in Hr.
  apply Nat.eqb_eq, Hr, list_elem_of_In. by eapply list_elem_of_lookup_2.
Qed.

(** ** solveGauss *)

Lemma cset_cset i v w st : cset i v (cset i w st) = cset i v st.
Proof. unfold cset. simpl. by rewrite list_insert_insert_eq. Qed.

(** The inner loop of [solveGauss] leaves in [C[row]] the right-hand side
    with the products subtracted one after the other, and nothing else. *)
Lemma solve_row_spec n row st :
  wf n st -> row < n ->
  solve_row n row st = cset row (back_sub_row st (C st) n row) st.
Proof.
  intros Hwf Hrow. unfold solve_row, back_sub_row, cols_down.
  set (f := fun acc col => sub acc (mul (mget st row col) (C st !!! col))).
  apply (for_down_ind
    (fun c t => t = cset row (foldl f (bget st row)
                                (rev (seq c (n - c)))) st)); [lia | |].
  - by replace (n - n) with 0 by lia.
  - intros c t Hc ->.
    replace (n - c) with (S (n - S c)) by lia. simpl. rewrite foldl_snoc.
    rewrite cset_cset. f_equal. unfold f at 2.
    erewrite (cget_cset n st) by done. rewrite decide_True by done.
    erewrite (cget_cset n st) by done. rewrite decide_False by lia.
    done.
Qed.

Lemma back_sub_row_ext st x y n row :
  (forall col, row < col < n -> x !!! col = y !!! col) ->
  back_sub_row st x n row = back_sub_row st y n row.
Proof.
  intros Hxy. unfold back_sub_row, cols_down.
  assert (Hin : forall col, col ∈ rev (seq (row + 1) (n - (row + 1))) ->
                            row < col < n).
  { intros col Hcol%list_elem_of_In%in_rev%in_seq. lia. }
  revert Hin. generalize (bget st row).
  induction (rev (seq (row + 1) (n - (row + 1)))) as [|c l IH];
    intros acc Hin; [done|]. simpl.
  rewrite (Hxy c) by (apply Hin; left). apply IH.
  intros col Hcol. apply Hin. by right.
Qed.

(** C8. Back-substitution reads the coefficient matrix and the
    right-hand side and writes neither: for every [n >= 1], after
    [solveGauss] every [A[i][j]] and every [b[i]] is what it was before the
    call; only [C] is written. *)
Theorem solveGauss_frame n st :
  1 <= n ->
  let st' := solveGauss n st in
  matrix st' = matrix st /\ B st' = B st /\
  (forall i j, mget st' i j = mget st i j) /\
  (forall i, bget st' i = bget st i).
Proof.
  intros Hn. simpl.
  enough (matrix (solveGauss n st) = matrix st /\ B (solveGauss n st) = B st)
    as [HM HB].
  { unfold mget, bget. rewrite HM, HB. done. }
  unfold solveGauss.
  apply (for_down_ind (fun _ s => matrix s = matrix st /\ B s = B st));
    [lia | done |].
  intros row s Hrow Hs. unfold solve_row.
  apply (for_down_ind (fun _ t => matrix t = matrix st /\ B t = B st));
    [lia | done |].
  intros col t _ Ht. done.
Qed.

Lemma solveGauss_frame_witness :
  let st := rounding_state in
  let st' := solveGauss 3 st in
  C st' = [S754_finite false 4503599627370496 2; one; one] /\
  matrix st' = matrix st /\ B st' = B st /\
  (forall i j, mget st' i j = mget st i j) /\
  (forall i, bget st' i = bget st i).
Proof.
  split; [reflexivity|]. apply (solveGauss_frame 3 rounding_state). lia.
Defined.

Lemma solveGauss_rows n st :
  wf n st -> 1 <= n ->
  let st' := solveGauss n st in
  wf n st' /\ matrix st' = matrix st /\ B st' = B st /\
  forall row, row < n -> cget st' row = back_sub_row st (C st') n row.
Proof.
  intros Hwf Hn. unfold solveGauss. simpl.
  set (P := fun i s =>
    wf n s /\ matrix s = matrix st /\ B s = B st /\
    forall row, i <= row < n -> cget s row = back_sub_row st (C s) n row).
  enough (P 0 (for_down (n - 1) 0 (solve_row n)
                 (cset (n - 1) (bget st (n - 1)) st))) as (H1 & H2 & H3 & H4).
  { do 3 (split; [done|]). intros row Hrow. apply H4. lia. }
  apply for_down_ind; unfold P; [lia | |].
  - split; [by apply wf_cset|]. do 2 (split; [done|]).
    intros row Hrow. replace row with (n - 1) by lia.
    erewrite cget_cset by (done || lia). rewrite decide_True by done.
    unfold back_sub_row, cols_down.
    by replace (n - (n - 1 + 1)) with 0 by lia.
  - intros i s Hi (Hs & HM & HB & IH).
    rewrite solve_row_spec by (done || lia).
    split; [by apply wf_cset|]. do 2 (split; [done|]).
    assert (Hst : forall x row, back_sub_row s x n row = back_sub_row st x n row).
    { intros x row. unfold back_sub_row, mget, bget. by rewrite HM, HB. }
    intros row Hrow. erewrite cget_cset by (done || lia).
    case_decide as Hd.
    + subst row. rewrite Hst. apply back_sub_row_ext.
      intros col Hcol. simpl. by rewrite list_lookup_total_insert_ne by lia.
    + rewrite IH by lia. apply back_sub_row_ext.
      intros col Hcol. simpl. by rewrite list_lookup_total_insert_ne by lia.
Qed.

(** C7, as amended. For every [n >= 1] back-substitution sets
    [x[n-1] = b[n-1]], and every other [x[row]] is [b[row]] from which
    [A[row][col] * x[col]] has been subtracted for each column from [n-1]
    down to [row+1], one rounded subtraction after the other. *)
Theorem solveGauss_back_substitution n st :
  wf n st -> 1 <= n ->
  let x := C (solveGauss n st) in
  x !!! (n - 1) = bget st (n - 1) /\
  forall row, row + 1 < n -> x !!! row = back_sub_row st x n row.
Proof.
  intros Hwf Hn. destruct (solveGauss_rows n st Hwf Hn) as (_ & _ & _ & Hx).
  simpl. split.
  - change (cget (solveGauss n st) (n - 1) = bget st (n - 1)).
    rewrite Hx by lia. unfold back_sub_row, cols_down.
    by replace (n - (n - 1 + 1)) with 0 by lia.
  - intros row Hrow. apply Hx. lia.
Qed.

Lemma solveGauss_back_substitution_witness :
  let x := C (solveGauss 3 rounding_state) in
  x !!! 2 = bget rounding_state 2 /\
  forall row, row + 1 < 3 -> x !!! row = back_sub_row rounding_state x 3 row.
Proof.
  apply (solveGauss_back_substitution 3 rounding_state); [|lia].
  apply wfb_wf. reflexivity.
Defined.

(** C7, the closed form. In double precision the successive subtractions
    are not [b[row]] minus the sum of the products: with [b[0] = 2^54] and
    two products equal to [1.0] the loop leaves [2^54] in [x[0]] (each
    [2^54 - 1] rounds back to [2^54]) while [b[0]] minus the sum, which is
    exactly [2.0], is [2^54 - 2]. *)
Lemma solveGauss_closed_form_counterexample :
  let st := rounding_state in
  let x := C (solveGauss 3 st) in
  x = [S754_finite false 4503599627370496 2; one; one] /\
  closed_form_row st x 3 0 = S754_finite false 9007199254740991 1 /\
  x !!! 0 <> closed_form_row st x 3 0.
Proof. vm_compute. repeat split. discriminate. Qed.

(** ** computeGauss: the elimination below a pivot row *)

Lemma eliminate_row_cells n i j st :
  wf n st -> i < j < n ->
  let st' := eliminate_row n i j st in
  wf n st' /\ C st' = C st /\
  (forall r c, mget st' r c =
     if decide (r = j) then reduced_cell st i j c n else mget st r c) /\
  (forall r, bget st' r =
     if decide (r = j) then sub (bget st j) (mul (mget st j i) (bget st i))
     else bget st r).
Proof.
  intros Hwf Hij. unfold eliminate_row. simpl.
  set (f := mget st j i).
  set (P := fun k t =>
    wf n t /\ B t = B st /\ C t = C st /\
    forall r c, mget t r c =
      if decide (r = j) then reduced_cell st i j c k else mget st r c).
  enough (P n (for_up (i + 1) n
     (fun k t => mset j k (sub (mget t j k) (mul f (mget t i k))) t)
     (mset j i zero st))) as (Hw & HB & HC & HM).
  { split; [by apply wf_bset|]. split; [done|]. split; [done|].
    intros r. erewrite bget_bset by (done || lia).
    unfold bget. rewrite HB. by repeat case_decide. }
  apply for_up_ind; unfold P; [lia | |].
  - split; [by apply wf_mset|]. do 2 (split; [done|]).
    intros r c. erewrite mget_mset by (done || lia). unfold reduced_cell.
    repeat case_decide; try done; try lia; intuition (subst; (done || lia)).
  - intros k t Hk (Hw & HB & HC & HM).
    split; [by apply wf_mset|]. do 2 (split; [done|]).
    intros r c. erewrite mget_mset by (done || lia).
    rewrite !HM. unfold reduced_cell.
    repeat case_decide; try done; try lia; intuition (subst; (done || lia)).
Qed.

(** The whole column sweep of step [i]. *)
Lemma eliminate_cells n i st :
  wf n st -> i < n ->
  let st' := eliminate n i st in
  wf n st' /\ C st' = C st /\
  (forall r c, mget st' r c =
     if decide (i < r < n) then reduced_cell st i r c n else mget st r c) /\
  (forall r, bget st' r =
     if decide (i < r < n) then sub (bget st r) (mul (mget st r i) (bget st i))
     else bget st r).
Proof.
  intros Hwf Hi. unfold eliminate. simpl.
  set (P := fun j t =>
    wf n t /\ C t = C st /\
    (forall r c, mget t r c =
       if decide (i < r < j) then reduced_cell st i r c n else mget st r c) /\
    (forall r, bget t r =
       if decide (i < r < j) then sub (bget st r) (mul (mget st r i) (bget st i))
       else bget st r)).
  enough (P n (for_up (i + 1) n (eliminate_row n i) st)) by done.
  apply for_up_ind; unfold P; [lia | |].
  - split; [done|]. split; [done|].
    split; intros; rewrite decide_False by lia; done.
  - intros j t Hj (Hw & HC & HM & HB).
    destruct (eliminate_row_cells n i j t Hw) as (Hw' & HC' & HM' & HB');
      [lia|].
    split; [done|]. split; [congruence|]. split.
    + intros r c. rewrite HM'. case_decide as Hr.
      * subst r. rewrite decide_True by lia. unfold reduced_cell.
        rewrite !HM. repeat case_decide; try done; lia.
      * rewrite HM. repeat case_decide; try done; lia.
    + intros r. rewrite HB'. case_decide as Hr.
      * subst r. rewrite decide_True by lia.
        rewrite !HB, !HM. repeat case_decide; try done; lia.
      * rewrite HB. repeat case_decide; try done; lia.
Qed.

(** ** Comparisons of doubles *)

Ltac cmp_cases :=
  repeat match goal with
  | H : context [Z.compare ?a ?b] |- _ => destruct (Z.compare_spec a b)
  | |- context [Z.compare ?a ?b] => destruct (Z.compare_spec a b)
  | H : context [Pos.compare_cont Eq ?a ?b] |- _ =>
      change (Pos.compare_cont Eq a b) with (Pos.compare a b) in H
  | |- context [Pos.compare_cont Eq ?a ?b] =>
      change (Pos.compare_cont Eq a b) with (Pos.compare a b)
  | H : context [Pos.compare ?a ?b] |- _ => destruct (Pos.compare_spec a b)
  | |- context [Pos.compare ?a ?b] => destruct (Pos.compare_spec a b)
  end;
  simpl in *; try done; try lia.

Ltac float_cases x :=
  destruct x as [[]|[]| |[] ? ?]; simpl in *; try done.

Lemma eqb_finite_inv x s m e :
  eqb x (S754_finite s m e) = true -> x = S754_finite s m e.
Proof.
  unfold eqb, SFeqb.
  destruct x as [[]|[]| |[] m' e'], s; simpl; try done; cmp_cases; congruence.
Qed.

Lemma neqb_one x : negb (eqb x one) = false -> x = one.
Proof. intros H%negb_false_iff. by apply eqb_finite_inv. Qed.

Lemma leb_refl x : is_nan x = false -> leb x x = true.
Proof.
  unfold leb, SFleb. float_cases x; intros _; cmp_cases.
Qed.

Lemma ltb_leb x y : ltb x y = true -> leb x y = true.
Proof. unfold ltb, leb, SFltb, SFleb. by destruct (SFcompare x y) as [[]|]. Qed.

Lemma leb_total x y :
  is_nan x = false -> is_nan y = false -> ltb x y = false -> leb y x = true.
Proof.
  unfold ltb, leb, SFltb, SFleb.
  float_cases x; float_cases y; intros _ _; cmp_cases.
Qed.

Lemma leb_ltb_trans x y z :
  leb x y = true -> ltb y z = true -> ltb x z = true.
Proof.
  unfold ltb, leb, SFltb, SFleb.
  float_cases x; float_cases y; float_cases z; intros H1 H2; cmp_cases.
Qed.

Lemma leb_ltb_absurd x y : leb x y = true -> ltb y x = true -> False.
Proof.
  unfold ltb, leb, SFltb, SFleb.
  float_cases x; float_cases y; intros H1 H2; cmp_cases.
Qed.

Lemma ABS_nan x : is_nan x = false -> is_nan (ABS x) = false.
Proof. unfold ABS. by float_cases x. Qed.

Lemma compare_ABS_l x y : SFcompare (ABS x) y = SFcompare (SFabs x) y.
Proof. unfold ABS. float_cases x; by float_cases y. Qed.

Lemma compare_ABS_r x y : SFcompare x (ABS y) = SFcompare x (SFabs y).
Proof. unfold ABS. float_cases y; by float_cases x. Qed.

Lemma leb_ABS x y : leb (ABS x) (ABS y) = leb (SFabs x) (SFabs y).
Proof. unfold leb, SFleb. by rewrite compare_ABS_l, compare_ABS_r. Qed.

Lemma ltb_ABS x y : ltb (ABS x) (ABS y) = ltb (SFabs x) (SFabs y).
Proof. unfold ltb, SFltb. by rewrite compare_ABS_l, compare_ABS_r. Qed.

Lemma eqb_ABS_zero x : eqb (ABS x) zero = eqb x zero.
Proof. unfold eqb, SFeqb. rewrite compare_ABS_l. by float_cases x. Qed.

(** ** getPivot *)

Lemma getPivot_unfold n k st :
  getPivot n k st =
  if eqb (pivot_big n k st) zero then Exit MsgSingular (-1)%Z
  else Done (normalize n k (pivot_swap n k st)).
Proof.
  unfold getPivot, pivot_big, pivot_row, pivot_swap, pivot_row.
  by destruct (pivot_scan n k st) as [big irow].
Qed.

(** The scan stays within the rows [k..n-1] and [big] is the value of the
    row it selects. *)
Lemma pivot_scan_range n k st :
  k < n ->
  k <= pivot_row n k st < n /\
  pivot_big n k st = ABS (mget st (pivot_row n k st) k).
Proof.
  intros Hk. unfold pivot_row, pivot_big, pivot_scan.
  set (P := fun (j : nat) (s : double * nat) =>
    k <= s.2 < j /\ s.1 = ABS (mget st s.2 k)).
  enough (P n (for_up (k + 1) n (fun i '(big, irow) =>
      let tmp := ABS (mget st i k) in
      if ltb big tmp then (tmp, i) else (big, irow))
      (ABS (mget st k k), k))) as [H1 H2] by done.
  apply for_up_ind; unfold P; simpl; [lia | split; [lia | done] |].
  intros j [big irow] Hj [H1 H2]. simpl in *.
  destruct (ltb big (ABS (mget st j k))); simpl; split; (lia || done).
Qed.

(** Without NaNs in the column the selected row holds the maximum absolute
    value, and no earlier row does. *)
Lemma pivot_scan_max n k st :
  k < n -> column_no_nan n k st ->
  selects_max_abs n k st (pivot_row n k st).
Proof.
  intros Hk Hnan. unfold selects_max_abs.
  split; [by apply pivot_scan_range|].
  setoid_rewrite <- leb_ABS. setoid_rewrite <- ltb_ABS.
  destruct (pivot_scan_range n k st Hk) as [_ <-].
  unfold pivot_row, pivot_big, pivot_scan.
  set (P := fun (j : nat) (s : double * nat) =>
    k <= s.2 < j /\ is_nan s.1 = false /\
    (forall i, k <= i < j -> leb (ABS (mget st i k)) s.1 = true) /\
    (forall i, k <= i < s.2 -> ltb (ABS (mget st i k)) s.1 = true)).
  enough (P n (for_up (k + 1) n (fun i '(big, irow) =>
      let tmp := ABS (mget st i k) in
      if ltb big tmp then (tmp, i) else (big, irow))
      (ABS (mget st k k), k))) as (_ & _ & H1 & H2) by done.
  apply for_up_ind; unfold P; simpl; [lia | |].
  - split; [lia|]. split; [apply ABS_nan, Hnan; lia|]. split.
    + intros i Hi. replace i with k by lia. apply leb_refl, ABS_nan, Hnan. lia.
    + intros i Hi. lia.
  - intros j [big irow] Hj (Hr & Hb & Hle & Hlt). simpl in *.
    assert (Hj' : is_nan (ABS (mget st j k)) = false) by (apply ABS_nan, Hnan; lia).
    destruct (ltb big (ABS (mget st j k))) eqn:E; simpl.
    + split; [lia|]. split; [done|]. split.
      * intros i Hi. destruct (decide (i = j)) as [->|Hne].
        -- by apply leb_refl.
        -- apply ltb_leb, (leb_ltb_trans _ big); [apply Hle; lia | done].
      * intros i Hi. apply (leb_ltb_trans _ big); [apply Hle; lia | done].
    + split; [lia|]. split; [done|]. split; [|done].
      intros i Hi. destruct (decide (i = j)) as [->|Hne].
      * by apply leb_total.
      * apply Hle. lia.
Qed.

(** A unique maximum leaves the scan no choice. *)
Lemma pivot_scan_unique n k st r :
  k < n -> column_no_nan n k st -> unique_max_abs n k st r ->
  pivot_row n k st = r.
Proof.
  intros Hk Hnan [Hr Huniq].
  destruct (pivot_scan_max n k st Hk Hnan) as (Hp & Hmax & _).
  destruct (decide (pivot_row n k st = r)) as [|Hne]; [done|].
  destruct (leb_ltb_absurd _ _ (Hmax r Hr)). by apply Huniq.
Qed.

(** An all-zero column makes the biggest value a zero. *)
Lemma pivot_scan_zero n k st :
  k < n -> column_zero n k st -> eqb (pivot_big n k st) zero = true.
Proof.
  intros Hk Hz. destruct (pivot_scan_range n k st Hk) as [Hr ->].
  rewrite eqb_ABS_zero. by apply Hz.
Qed.

Lemma wf_pivot_swap n k st : wf n st -> k < n -> wf n (pivot_swap n k st).
Proof.
  intros Hwf Hk. unfold pivot_swap.
  destruct (negb _); [|done]. apply wf_swap_rows; [done | | done].
  by apply pivot_scan_range.
Qed.

(** The cells after the normalisation of the pivot row [k]. *)
Lemma normalize_cells n k st :
  wf n st -> k < n ->
  let st' := normalize n k st in
  wf n st' /\ C st' = C st /\
  (forall r c, mget st' r c =
     if decide (r = k /\ k <= c < n)
     then if decide (c = k) then one else norm_val (mget st k k) (mget st k c)
     else mget st r c) /\
  (forall r, bget st' r =
     if decide (r = k) then norm_val (mget st k k) (bget st k) else bget st r).
Proof.
  intros Hwf Hk. unfold normalize, norm_val. simpl.
  set (pv := mget st k k).
  destruct (negb (eqb pv one)) eqn:E.
  - set (P := fun i t =>
      wf n t /\ B t = B st /\ C t = C st /\
      forall r c, mget t r c =
        if decide (r = k /\ k <= c < i)
        then if decide (c = k) then one else div (mget st k c) pv
        else mget st r c).
    enough (P n (for_up (k + 1) n
       (fun i t => mset k i (div (mget t k i) pv) t)
       (mset k k one st))) as (Hw & HB & HC & HM).
    { split; [by apply wf_bset|]. do 2 (split; [done|]).
      intros r. erewrite bget_bset by (done || lia).
      unfold bget. rewrite HB. by repeat case_decide; subst. }
    apply for_up_ind; unfold P; [lia | |].
    + split; [by apply wf_mset|]. do 2 (split; [done|]).
      intros r c. erewrite mget_mset by (done || lia).
      repeat case_decide; try done; try lia; intuition (subst; (done || lia)).
    + intros i t Hi (Hw & HB & HC & HM).
      split; [by apply wf_mset|]. do 2 (split; [done|]).
      intros r c. erewrite mget_mset by (done || lia). rewrite !HM.
      repeat case_decide; try done; try lia; intuition (subst; (done || lia)).
  - apply neqb_one in E. unfold pv in E. split; [done|]. split; [done|]. split.
    + intros r c. repeat case_decide; destruct_and?; subst; congruence.
    + intros r. case_decide; by subst.
Qed.

Lemma pivot_swap_cells n k st :
  wf n st -> k < n ->
  let st' := pivot_swap n k st in
  let r := pivot_row n k st in
  wf n st' /\ C st' = C st /\
  (forall i c, mget st' i c = mget st (transpose r k i) c) /\
  (forall i, bget st' i = bget st (transpose r k i)).
Proof.
  intros Hwf Hk. simpl. destruct (pivot_scan_range n k st Hk) as [Hr _].
  split; [by apply wf_pivot_swap|]. unfold pivot_swap, transpose.
  destruct (Nat.eqb_spec (pivot_row n k st) k) as [->|Hne]; simpl.
  - split; [done|]. split; intros; by repeat case_decide; subst.
  - split; [done|]. split; intros.
    + by erewrite mget_swap_rows by (done || lia).
    + by erewrite bget_swap_rows by (done || lia).
Qed.

(** After a completed [getPivot] the pivot is [1.0]. *)
Lemma getPivot_Done n k st st' :
  wf n st -> k < n -> getPivot n k st = Done st' ->
  st' = normalize n k (pivot_swap n k st) /\ wf n st' /\ mget st' k k = one.
Proof.
  intros Hwf Hk. rewrite getPivot_unfold.
  destruct (eqb (pivot_big n k st) zero); [done|]. intros [= <-].
  destruct (normalize_cells n k (pivot_swap n k st)) as (Hw & _ & HM & _);
    [by apply wf_pivot_swap | done |].
  split; [done|]. split; [done|].
  rewrite HM. rewrite decide_True by lia. by rewrite decide_True.
Qed.

(** One step of [computeGauss] extends the triangular part by a column. *)
Lemma gauss_step_triangular n k st st' :
  wf n st -> k < n -> gauss_step n k st = Done st' ->
  triangular_upto n k st ->
  wf n st' /\ triangular_upto n (S k) st'.
Proof.
  intros Hwf Hk Hstep [Hdiag Hlow]. unfold gauss_step in Hstep.
  destruct (getPivot n k st) as [st2| |] eqn:Hp; [|done..].
  simpl in Hstep. injection Hstep as <-.
  destruct (getPivot_Done n k st st2 Hwf Hk Hp) as (-> & Hw2 & Hkk).
  destruct (pivot_scan_range n k st Hk) as [Hr _].
  destruct (pivot_swap_cells n k st Hwf Hk) as (Hw1 & _ & HM1 & _).
  destruct (normalize_cells n k _ Hw1 Hk) as (_ & _ & HM2 & _).
  destruct (eliminate_cells n k _ Hw2 Hk) as (Hw3 & _ & HM3 & _).
  split; [done|]. split.
  - intros r Hr'. rewrite HM3. rewrite decide_False by lia.
    destruct (decide (r = k)) as [->|Hne]; [done|].
    rewrite HM2. rewrite decide_False by lia. rewrite HM1.
    unfold transpose. repeat case_decide; try lia. apply Hdiag. lia.
  - intros r c Hc Hrc. rewrite HM3. unfold reduced_cell.
    assert (Hsw : c < k -> forall i, c < i < n ->
                  mget (pivot_swap n k st) i c = zero).
    { intros Hck i Hi. rewrite HM1. apply Hlow; [done|].
      unfold transpose. repeat case_decide; lia. }
    repeat case_decide; try done; try lia.
    + rewrite HM2. rewrite decide_False by lia. apply Hsw; lia.
    + rewrite HM2. rewrite decide_False by lia. apply Hsw; lia.
Qed.

Lemma gauss_upto_triangular n k st st' :
  wf n st -> k <= n -> gauss_upto n k st = Done st' ->
  wf n st' /\ triangular_upto n k st'.
Proof.
  intros Hwf Hk. unfold gauss_upto.
  apply (for_upM_ind (fun i s => wf n s /\ triangular_upto n i s)); [lia | |].
  - split; [done|]. split; intros; lia.
  - intros i s s' Hi [Hw Ht] Hs.
    apply (gauss_step_triangular n i s); (done || lia).
Qed.

(** C2. After a completed elimination on an [n] x [n] system the matrix is
    upper-triangular with unit diagonal: every entry below the diagonal is
    the double [0.0] and every diagonal entry is the double [1.0]. *)
Theorem computeGauss_triangular n st st' :
  wf n st -> 1 <= n -> computeGauss n st = Done st' ->
  (forall i j, j < i < n -> mget st' i j = zero) /\
  (forall i, i < n -> mget st' i i = one).
Proof.
  intros Hwf Hn Hrun.
  destruct (gauss_upto_triangular n n st st' Hwf) as (_ & Hdiag & Hlow);
    [lia | done |].
  split.
  - intros i j Hij. apply Hlow; lia.
  - intros i Hi. by apply Hdiag.
Qed.

Lemma computeGauss_triangular_witness :
  let st := initMatrix 3 (uniform_buffers S754_nan 3) in
  exists st', computeGauss 3 st = Done st' /\
    (forall i j, j < i < 3 -> mget st' i j = zero) /\
    (forall i, i < 3 -> mget st' i i = one).
Proof.
  eexists. split; [vm_compute; reflexivity|].
  apply (computeGauss_triangular 3 (initMatrix 3 (uniform_buffers S754_nan 3)));
    [apply wfb_wf; reflexivity | lia | vm_compute; reflexivity].
Defined.

(** C6. [computeGauss] runs the steps [k = 0 .. n-1] in order.  At step
    [k], on the state the steps before it left and once the pivot has been
    selected, the elimination updates each row [j] from [k+1] to [n-1]:
    with [f = A[j][k]] it stores the double [0.0] in [A[j][k]], replaces
    [A[j][c]] by [A[j][c] - f * A[k][c]] for every column [c] from [k+1]
    to [n-1], and replaces [b[j]] by [b[j] - f * b[k]]; the rows up to [k]
    are left as the pivot selection made them; the run goes on from that
    state with the steps after [k].  A run that completes has gone through
    every step this way and returns the state the last step left. *)
Theorem computeGauss_elimination n st0 :
  wf n st0 ->
  gauss_upto n 0 st0 = Done st0 /\
  (forall k st st1, k < n ->
     gauss_upto n k st0 = Done st -> getPivot n k st = Done st1 ->
     let st2 := eliminate n k st1 in
     gauss_step n k st = Done st2 /\
     gauss_upto n (S k) st0 = Done st2 /\
     computeGauss n st0 = for_upM (S k) n (gauss_step n) st2 /\
     (forall j, k < j < n ->
        let f := mget st1 j k in
        mget st2 j k = zero /\
        (forall c, k < c < n ->
           mget st2 j c = sub (mget st1 j c) (mul f (mget st1 k c))) /\
        bget st2 j = sub (bget st1 j) (mul f (bget st1 k))) /\
     (forall r, r <= k -> bget st2 r = bget st1 r /\
        forall c, mget st2 r c = mget st1 r c)) /\
  (forall st', computeGauss n st0 = Done st' ->
     gauss_upto n n st0 = Done st' /\
     forall k, k < n -> exists st st1,
       gauss_upto n k st0 = Done st /\ getPivot n k st = Done st1 /\
       gauss_upto n (S k) st0 = Done (eliminate n k st1)).
Proof.
  intros Hwf.
  assert (Hnext : forall k st st1, k < n ->
     gauss_upto n k st0 = Done st -> getPivot n k st = Done st1 ->
     gauss_upto n (S k) st0 = Done (eliminate n k st1)).
  { intros k st st1 Hk Hrun Hp. unfold gauss_upto in *.
    rewrite for_upM_last by lia. rewrite Hrun. simpl.
    unfold gauss_step. by rewrite Hp. }
  split; [done|]. split.
  - intros k st st1 Hk Hrun Hp. simpl.
    pose proof (Hnext k st st1 Hk Hrun Hp) as Hrun'.
    destruct (gauss_upto_triangular n k st0 st Hwf ltac:(lia) Hrun) as [Hw _].
    destruct (getPivot_Done n k st st1 Hw Hk Hp) as (_ & Hw1 & _).
    destruct (eliminate_cells n k st1 Hw1 Hk) as (_ & _ & HM & HB).
    split; [unfold gauss_step; by rewrite Hp|]. split; [done|]. split.
    { unfold computeGauss, gauss_upto in *.
      rewrite (for_upM_split 0 (S k) n) by lia. by rewrite Hrun'. }
    split.
    + intros j Hj. split; [|split].
      * rewrite HM, decide_True by done. unfold reduced_cell.
        by rewrite decide_True.
      * intros c Hc. rewrite HM, decide_True by done. unfold reduced_cell.
        rewrite decide_False by lia. by rewrite decide_True.
      * by rewrite HB, decide_True.
    + intros r Hr. split.
      * by rewrite HB, decide_False by lia.
      * intros c. by rewrite HM, decide_False by lia.
  - intros st' Hdone. split; [done|]. intros k Hk.
    unfold computeGauss in Hdone.
    rewrite (for_upM_split 0 k n) in Hdone by lia.
    destruct (for_upM 0 k (gauss_step n) st0) as [st| |] eqn:Hrun; [|done..].
    simpl in Hdone. rewrite for_upM_first in Hdone by lia.
    assert (exists st1, getPivot n k st = Done st1) as [st1 Hp].
    { destruct (gauss_step n k st) as [s| |] eqn:Hs; [|done..].
      unfold gauss_step in Hs.
      destruct (getPivot n k st) as [st1| |]; [by exists st1 | done..]. }
    exists st, st1. split; [done|]. split; [done|]. by apply (Hnext k st).
Qed.

Lemma computeGauss_elimination_witness :
  let st0 := initMatrix 3 (uniform_buffers S754_nan 3) in
  exists st st1 st',
    gauss_upto 3 1 st0 = Done st /\ getPivot 3 1 st = Done st1 /\
    computeGauss 3 st0 = Done st' /\
    computeGauss 3 st0 = for_upM 2 3 (gauss_step 3) (eliminate 3 1 st1) /\
    mget (eliminate 3 1 st1) 2 1 = zero /\
    mget (eliminate 3 1 st1) 2 2 =
      sub (mget st1 2 2) (mul (mget st1 2 1) (mget st1 1 2)) /\
    bget (eliminate 3 1 st1) 2 =
      sub (bget st1 2) (mul (mget st1 2 1) (bget st1 1)) /\
    gauss_upto 3 3 st0 = Done st'.
Proof.
  destruct (computeGauss_elimination 3
              (initMatrix 3 (uniform_buffers S754_nan 3))
              ltac:(apply wfb_wf; reflexivity)) as (_ & Hstep & Hall).
  eexists. eexists. eexists.
  split; [vm_compute; reflexivity|]. split; [vm_compute; reflexivity|].
  split; [vm_compute; reflexivity|].
  destruct (Hstep 1 _ _ ltac:(lia) ltac:(vm_compute; reflexivity)
              ltac:(vm_compute; reflexivity)) as (_ & _ & Hrest & Hcells & _).
  split; [exact Hrest|].
  destruct (Hcells 2 ltac:(lia)) as (Ha & Hb & Hc).
  split; [exact Ha|]. split; [apply Hb; lia|]. split; [exact Hc|].
  apply Hall. vm_compute. reflexivity.
Defined.

(** C3. When at some step [k] every entry of column [k] in the rows
    [k..n-1] is a zero, or more generally the maximum absolute value found
    by the scan compares equal to [0.0], [getPivot] reports the singular
    matrix and exits with status [-1]: the elimination stops there and no
    solution vector is computed. *)
Theorem singular_pivot_stops n k st0 st :
  k < n -> gauss_upto n k st0 = Done st ->
  column_zero n k st \/ eqb (pivot_big n k st) zero = true ->
  getPivot n k st = Exit MsgSingular (-1)%Z /\
  computeGauss n st0 = Exit MsgSingular (-1)%Z /\
  solve n st0 = Exit MsgSingular (-1)%Z.
Proof.
  intros Hk Hrun Hz.
  assert (Hbig : eqb (pivot_big n k st) zero = true).
  { destruct Hz as [Hz|Hz]; [by apply pivot_scan_zero | done]. }
  assert (Hp : getPivot n k st = Exit MsgSingular (-1)%Z).
  { rewrite getPivot_unfold. by rewrite Hbig. }
  assert (Hg : computeGauss n st0 = Exit MsgSingular (-1)%Z).
  { unfold computeGauss, gauss_upto in *.
    rewrite (for_upM_split 0 k n) by lia. rewrite Hrun. simpl.
    rewrite for_upM_first by lia.
    assert (gauss_step n k st = Exit MsgSingular (-1)%Z) as ->; [|done].
    unfold gauss_step. by rewrite Hp. }
  split; [done|]. split; [done|]. unfold solve. by rewrite Hg.
Qed.

Lemma singular_pivot_stops_witness :
  computeGauss 2 singular_state = Exit MsgSingular (-1)%Z /\
  solve 2 singular_state = Exit MsgSingular (-1)%Z.
Proof.
  refine (proj2 (singular_pivot_stops 2 1 singular_state
    (mkState [[one; one]; [zero; zero]] [one; one] [zero; zero]) _ _ _)).
  - lia.
  - vm_compute. reflexivity.
  - left. intros i Hi. replace i with 1 by lia. reflexivity.
Defined.

(** C5, as amended. At step [k], on a state whose column [k] holds no NaN
    in the rows [k..n-1], the scan selects the row with the maximum
    absolute value, the first one on ties, so that a unique maximum
    determines it; [getPivot] then either stops on a zero maximum or
    exchanges that row with row [k] when they differ (matrix rows together
    with the right-hand-side entries) and normalises, after which
    [A[k][k]] is [1.0]. *)
Theorem getPivot_selects_max n k st :
  wf n st -> k < n -> column_no_nan n k st ->
  let r := pivot_row n k st in
  selects_max_abs n k st r /\
  (forall r', unique_max_abs n k st r' -> r = r') /\
  getPivot n k st =
    (if eqb (mget st r k) zero then Exit MsgSingular (-1)%Z
     else Done (normalize n k (if decide (r = k) then st
                               else swap_rows r k st))) /\
  (forall st', getPivot n k st = Done st' ->
     mget st' k k = one /\
     (r <> k -> bget st' r = bget st k /\
                forall c, mget st' r c = mget st k c)).
Proof.
  intros Hwf Hk Hnan. simpl.
  destruct (pivot_scan_range n k st Hk) as [Hr Hbig].
  split; [by apply pivot_scan_max|].
  split; [intros r' Hr'; by apply pivot_scan_unique|].
  split.
  - rewrite getPivot_unfold, Hbig, eqb_ABS_zero. unfold pivot_swap.
    destruct (Nat.eqb_spec (pivot_row n k st) k) as [E|E]; simpl.
    + by rewrite decide_True.
    + by rewrite decide_False.
  - intros st' Hp.
    destruct (getPivot_Done n k st st' Hwf Hk Hp) as (-> & Hw & Hkk).
    split; [done|]. intros Hne.
    destruct (pivot_swap_cells n k st Hwf Hk) as (Hw1 & _ & HM1 & HB1).
    destruct (normalize_cells n k _ Hw1 Hk) as (_ & _ & HM2 & HB2).
    split.
    + rewrite HB2, decide_False by done. rewrite HB1. unfold transpose.
      rewrite decide_False by done. by rewrite decide_True.
    + intros c. rewrite HM2, decide_False by lia. rewrite HM1.
      unfold transpose. rewrite decide_False by done. by rewrite decide_True.
Qed.

Lemma getPivot_selects_max_witness :
  let st := mkState [[one; two]; [S754_finite true 4503599627370496 (-51); zero]]
                    [one; mhalf] [zero; zero] in
  pivot_row 2 0 st = 1 /\ selects_max_abs 2 0 st 1 /\
  exists st', getPivot 2 0 st = Done st' /\ mget st' 0 0 = one /\
              bget st' 1 = one /\ mget st' 1 1 = two.
Proof.
  set (st := mkState _ _ _). simpl.
  assert (Hnan : column_no_nan 2 0 st).
  { intros [|[|i]] Hi; [reflexivity | reflexivity | lia]. }
  destruct (getPivot_selects_max 2 0 st ltac:(apply wfb_wf; reflexivity)
              ltac:(lia) Hnan) as (H1 & _ & _ & H4).
  split; [reflexivity|]. split; [exact H1|].
  eexists. split; [vm_compute; reflexivity|].
  destruct (H4 _ eq_refl) as [Ha Hb]. split; [exact Ha|].
  destruct (Hb ltac:(discriminate)) as [Hc Hd]. split; [exact Hc | apply Hd].
Defined.

(** C5, as stated. With a NaN on the diagonal the scan keeps row [k]
    whatever lies below: nothing compares greater than a NaN, and the NaN
    is not a maximum of the column. *)
Lemma getPivot_nan_counterexample :
  pivot_row 2 0 nan_state = 0 /\
  ~ selects_max_abs 2 0 nan_state (pivot_row 2 0 nan_state).
Proof.
  split; [reflexivity|]. intros (_ & Hmax & _).
  specialize (Hmax 1 ltac:(lia)). vm_compute in Hmax. discriminate.
Qed.

(** ** main: the command line *)

Lemma parse_args_snoc atoi opts r :
  parse_args atoi (opts ++ [r]) = (s ← parse_args atoi opts; parse_option atoi r s).
Proof. unfold parse_args. by rewrite foldl_snoc. Qed.

(** The option loop never calls [exit]. *)
Lemma parse_args_no_exit atoi opts o c : parse_args atoi opts <> Exit o c.
Proof.
  induction opts as [|r opts IH] using rev_ind; [done|].
  rewrite parse_args_snoc.
  destruct (parse_args atoi opts) as [[n out]| |]; [|done..]. simpl.
  destruct r as [a|]; [|done]. by destruct (0 <? atoi a)%Z.
Qed.

Lemma parse_args_other atoi opts c rest :
  parse_args atoi (opts ++ Opt_other c :: rest) = AssertFailed.
Proof.
  pose proof (parse_args_no_exit atoi opts) as Hne.
  unfold parse_args in *. rewrite foldl_app. simpl.
  set (m := foldl _ _ opts) in *.
  assert (Hm : (s ← m; parse_option atoi (Opt_other c) s) = AssertFailed).
  { destruct m as [[n out]|o z|]; [done | by destruct (Hne o z) | done]. }
  rewrite Hm. by apply bind_not_done_foldl.
Qed.

Lemma parse_args_flags atoi opts :
  (forall r, r ∈ opts -> exists a, r = Opt_s a) ->
  exists n out, parse_args atoi opts = Done (n, out) /\ (0 < n)%Z.
Proof.
  induction opts as [|r opts IH] using rev_ind; intros Hs.
  - exists 1024%Z, []. split; [done | lia].
  - destruct IH as (n & out & Hp & Hn).
    { intros r' Hr'. apply Hs. apply elem_of_app. by left. }
    destruct (Hs r) as [a ->]. { apply elem_of_app. right. by left. }
    rewrite parse_args_snoc, Hp. simpl.
    destruct (0 <? atoi a)%Z eqn:E.
    + exists (atoi a), out. split; [done|]. by apply Z.ltb_lt.
    + by exists n, (out ++ [MsgNegative n]).
Qed.

(** C10, as amended. Without a [-s] flag the dimension is 1024; a [-s]
    flag with a positive value sets the dimension to that value; a [-s]
    flag with a value that is not positive prints the warning and keeps the
    dimension reached so far, which is 1024 unless an earlier [-s] set
    another one; the dimension is always positive; and an unrecognised flag
    stops the run on the failed assertion before anything is allocated or
    solved. *)
Theorem parse_args_spec (atoi : string -> Z) :
  parse_args atoi [] = Done (1024%Z, []) /\
  (forall opts n out a,
     parse_args atoi opts = Done (n, out) ->
     parse_args atoi (opts ++ [Opt_s a]) =
       if (0 <? atoi a)%Z then Done (atoi a, out)
       else Done (n, out ++ [MsgNegative n])) /\
  (forall a,
     parse_args atoi [Opt_s a] =
       if (0 <? atoi a)%Z then Done (atoi a, [])
       else Done (1024%Z, [MsgNegative 1024])) /\
  (forall opts, (forall r, r ∈ opts -> exists a, r = Opt_s a) ->
     exists n out, parse_args atoi opts = Done (n, out) /\ (0 < n)%Z) /\
  (forall al opts c rest,
     parse_args atoi (opts ++ Opt_other c :: rest) = AssertFailed /\
     main atoi al (opts ++ Opt_other c :: rest) = AssertFailed).
Proof.
  split; [done|]. split; [|split; [|split]].
  - intros opts n out a Hp. by rewrite parse_args_snoc, Hp.
  - intros a. unfold parse_args. simpl. by destruct (0 <? atoi a)%Z.
  - apply parse_args_flags.
  - intros al opts c rest. split; [apply parse_args_other|].
    unfold main. by rewrite parse_args_other.
Qed.

(** C10, as stated. After [-s 5] a later [-s 0] prints the warning and
    keeps the dimension 5, not the default 1024. *)
Lemma parse_args_default_counterexample :
  atoi_five "5" = 5%Z /\ atoi_five "0" = 0%Z /\
  parse_args atoi_five [Opt_s "5"; Opt_s "0"] = Done (5%Z, [MsgNegative 5]).
Proof. repeat split. Qed.

(** ** main with the dimension 1 *)

(** C4. With [-s 1] the pipeline computes the solution [x = [0]] of
    [[2]] x = [0], whatever the allocated cells held, but the verification
    loop takes its first branch for the only index and asserts
    [C[0] == -0.5]: the assertion fails and the run aborts without printing
    that the solution is correct. *)
Theorem main_dimension_one u :
  (exists st, pipeline 1 (uniform_buffers u 1) = Done st /\
              matrix st = [[one]] /\ B st = [zero] /\ C st = [zero]) /\
  (forall st, C st = [zero] -> verify 1 st = AssertFailed) /\
  (forall al st0, allocate_memory al 1%Z = Done st0 ->
     exists st, pipeline 1 st0 = Done st /\
                matrix st = [[one]] /\ B st = [zero] /\ C st = [zero]) /\
  (forall al atoi arg, atoi arg = 1%Z -> main atoi al [Opt_s arg] = AssertFailed).
Proof.
  assert (Hverify : forall st, C st = [zero] -> verify 1 st = AssertFailed).
  { intros st Hc. unfold verify, for_upM, cget. simpl. by rewrite Hc. }
  assert (Halloc : forall al st0, allocate_memory al 1%Z = Done st0 ->
     exists st, pipeline 1 st0 = Done st /\
                matrix st = [[one]] /\ B st = [zero] /\ C st = [zero]).
  { intros al st0. unfold allocate_memory.
    repeat (destruct (malloc_ok al _ _); simpl; [|done]).
    intros [= <-]. eexists. split; [vm_compute; reflexivity | done]. }
  split; [|split; [done|split; [done|]]].
  - eexists. split; [vm_compute; reflexivity | done].
  - intros al atoi arg Harg. unfold main, parse_args. simpl. rewrite Harg.
    simpl. destruct (allocate_memory al 1) as [st0| |] eqn:E; simpl.
    + destruct (Halloc al st0 E) as (st & Hrun & _ & _ & Hc).
      change (Z.to_nat 1) with 1. unfold pipeline, solve in Hrun.
      destruct (computeGauss 1 (initMatrix 1 st0)) as [s1| |]; [|done..].
      simpl in *. injection Hrun as ->. by rewrite Hverify.
    + unfold allocate_memory in E.
      by repeat (destruct (malloc_ok al _ _); simpl in E).
    + done.
Qed.

(** ** Exact arithmetic on integers below [2^53] *)

Lemma iter_pos_nat {A} (f : A -> A) p x :
  SpecFloat.iter_pos f p x = Nat.iter (Pos.to_nat p) f x.
Proof.
  revert x. induction p as [p IH|p IH|]; intros x.
  - rewrite Pos2Nat.inj_xI.
    replace (S (2 * Pos.to_nat p)) with (Pos.to_nat p + (Pos.to_nat p + 1)) by lia.
    rewrite !Nat.iter_add. cbn [SpecFloat.iter_pos]. by rewrite !IH.
  - rewrite Pos2Nat.inj_xO.
    replace (2 * Pos.to_nat p) with (Pos.to_nat p + Pos.to_nat p) by lia.
    rewrite Nat.iter_add. cbn [SpecFloat.iter_pos]. by rewrite !IH.
  - done.
Qed.

Lemma pos_iter_shl p k : Pos.iter xO p k = shl_nat (Pos.to_nat k) p.
Proof. unfold shl_nat. by rewrite Pos2Nat.inj_iter. Qed.

Lemma shl_nat_add j k p : shl_nat j (shl_nat k p) = shl_nat (j + k) p.
Proof. unfold shl_nat. by rewrite Nat.iter_add. Qed.

Lemma shl_nat_Z k p : Zpos (shl_nat k p) = (Zpos p * 2 ^ Z.of_nat k)%Z.
Proof.
  induction k as [|k IH]; [simpl; lia|].
  change (shl_nat (S k) p) with (xO (shl_nat k p)).
  rewrite Pos2Z.inj_xO, IH, Nat2Z.inj_succ, Z.pow_succ_r by lia. lia.
Qed.

Lemma digits_shl k p :
  Zpos (digits2_pos (shl_nat k p)) = (Zpos (digits2_pos p) + Z.of_nat k)%Z.
Proof.
  induction k as [|k IH]; [simpl; lia|].
  change (shl_nat (S k) p) with (xO (shl_nat k p)). simpl digits2_pos.
  rewrite Pos2Z.inj_succ, IH. lia.
Qed.

Lemma digits_size p : digits2_pos p = Pos.size p.
Proof. induction p; simpl; congruence. Qed.

Lemma digits_bounds p :
  (2 ^ (Zpos (digits2_pos p) - 1) <= Zpos p < 2 ^ Zpos (digits2_pos p))%Z.
Proof.
  rewrite digits_size. split.
  - pose proof (Pos.size_le p) as H.
    apply Pos2Z.pos_le_pos in H. rewrite Pos2Z.inj_pow in H.
    change (Z.pos p~0) with (2 * Z.pos p)%Z in H.
    replace (Z.pos (Pos.size p)) with (Z.succ (Z.pos (Pos.size p) - 1)) in H by lia.
    rewrite Z.pow_succ_r in H by lia. lia.
  - pose proof (Pos.size_gt p) as H.
    apply Pos2Z.pos_lt_pos in H. by rewrite Pos2Z.inj_pow in H.
Qed.

Lemma digits_le_53 p : (Zpos p < 2 ^ 53)%Z -> (Zpos (digits2_pos p) <= 53)%Z.
Proof.
  intros Hp. destruct (digits_bounds p) as [H1 _].
  destruct (Z.le_gt_cases (Zpos (digits2_pos p)) 53) as [|Hgt]; [done|].
  assert (2 ^ 53 <= 2 ^ (Zpos (digits2_pos p) - 1))%Z
    by (apply Z.pow_le_mono_r; lia).
  lia.
Qed.

Lemma digits_mono p q :
  (Zpos p <= Zpos q)%Z -> (Zpos (digits2_pos p) <= Zpos (digits2_pos q))%Z.
Proof.
  intros Hpq. destruct (digits_bounds p) as [H1 _].
  destruct (digits_bounds q) as [_ H2].
  destruct (Z.le_gt_cases (Zpos (digits2_pos p)) (Zpos (digits2_pos q)))
    as [|Hgt]; [done|].
  assert (2 ^ Zpos (digits2_pos q) <= 2 ^ (Zpos (digits2_pos p) - 1))%Z
    by (apply Z.pow_le_mono_r; lia).
  lia.
Qed.

Lemma shr_exact k q :
  Nat.iter k shr_1 (Build_shr_record (Zpos (shl_nat k q)) false false) =
  Build_shr_record (Zpos q) false false.
Proof.
  induction k as [|k IH]; [done|].
  rewrite Nat.iter_succ_r. by change (shl_nat (S k) q) with (xO (shl_nat k q)).
Qed.

Lemma fexp_small e : (-1021 <= e)%Z -> fexp prec emax e = (e - 53)%Z.
Proof. unfold fexp, emin, prec, emax. lia. Qed.

Lemma shr_fexp_53 mz e :
  Zpos (digits2_pos mz) = 53%Z -> (-1074 <= e)%Z ->
  shr_fexp prec emax (Zpos mz) e loc_Exact =
  (Build_shr_record (Zpos mz) false false, e).
Proof.
  intros Hd He. unfold shr_fexp. cbn [Zdigits2].
  rewrite Hd, fexp_small by lia.
  by replace (53 + e - 53 - e)%Z with 0%Z by lia.
Qed.

(** A mantissa of exactly 53 bits is not rounded. *)
Lemma round_aux_53 s mz e :
  Zpos (digits2_pos mz) = 53%Z -> (-1074 <= e <= 971)%Z ->
  binary_round_aux prec emax s (Zpos mz) e loc_Exact = S754_finite s mz e.
Proof.
  intros Hd He. unfold binary_round_aux.
  rewrite shr_fexp_53 by (done || lia).
  cbn [shr_m loc_of_shr_record round_nearest_even].
  rewrite shr_fexp_53 by (done || lia). cbn [shr_m].
  replace (e <=? emax - prec)%Z with true; [done|].
  symmetry. apply Z.leb_le. unfold emax, prec. lia.
Qed.

(** Trailing zero bits are shifted out without rounding. *)
Lemma round_aux_shift s mz e k :
  Zpos (digits2_pos mz) = 53%Z -> (-1074 <= e <= 971)%Z ->
  binary_round_aux prec emax s (Zpos (shl_nat k mz)) (e - Z.of_nat k) loc_Exact =
  S754_finite s mz e.
Proof.
  intros Hd He. destruct k as [|k].
  { simpl. rewrite Z.sub_0_r. by apply round_aux_53. }
  rewrite <- (round_aux_53 s mz e Hd He).
  unfold binary_round_aux. rewrite (shr_fexp_53 mz e) by (done || lia).
  unfold shr_fexp at 1. cbn [Zdigits2].
  rewrite digits_shl, Hd, fexp_small by lia.
  replace (53 + Z.of_nat (S k) + (e - Z.of_nat (S k)) - 53 -
           (e - Z.of_nat (S k)))%Z with (Zpos (Pos.of_succ_nat k)) by lia.
  cbn [shr shr_record_of_loc]. rewrite iter_pos_nat, SuccNat2Pos.id_succ.
  rewrite shr_exact.
  by replace (e - Z.of_nat (S k) + Z.pos (Pos.of_succ_nat k))%Z with e by lia.
Qed.

(** An integer below [2^53] with [k] trailing zero bits appended, at the
    exponent [-k], rounds to the representation of the integer. *)
Lemma binary_round_shl c k :
  (Zpos (digits2_pos c) <= 53)%Z ->
  binary_round prec emax false (shl_nat k c) (- Z.of_nat k) = canon c.
Proof.
  intros Hd. unfold binary_round, canon.
  set (d := Zpos (digits2_pos c)) in *.
  assert (Hd1 : (1 <= d)%Z) by (unfold d; lia).
  set (mz := shl_nat (Z.to_nat (53 - d)) c).
  assert (Hmz : Zpos (digits2_pos mz) = 53%Z).
  { unfold mz. rewrite digits_shl. fold d. lia. }
  rewrite digits_shl. fold d.
  replace (d + Z.of_nat k + - Z.of_nat k)%Z with d by lia.
  rewrite fexp_small by lia. unfold shl_align.
  destruct (d - 53 - - Z.of_nat k)%Z as [|q|q] eqn:E.
  - replace (shl_nat k c) with mz.
    2:{ unfold mz. f_equal. lia. }
    replace (- Z.of_nat k)%Z with (d - 53)%Z by lia.
    apply round_aux_53; [done | lia].
  - replace (shl_nat k c) with (shl_nat (Pos.to_nat q) mz).
    2:{ unfold mz. rewrite shl_nat_add. f_equal. lia. }
    replace (- Z.of_nat k)%Z with (d - 53 - Z.of_nat (Pos.to_nat q))%Z by lia.
    apply round_aux_shift; [done | lia].
  - rewrite pos_iter_shl, shl_nat_add.
    replace (Pos.to_nat q + k) with (Z.to_nat (53 - d)) by lia. fold mz.
    apply round_aux_53; [done | lia].
Qed.

Lemma of_int_canon c : (Zpos c < 2 ^ 53)%Z -> of_int (Zpos c) = canon c.
Proof.
  intros Hc. unfold of_int, binary_normalize.
  apply (binary_round_shl c 0). by apply digits_le_53.
Qed.

(** Subtraction of integers below [2^53] is exact. *)
Lemma sub_of_int x y :
  (0 <= y <= x)%Z -> (x < 2 ^ 53)%Z ->
  sub (of_int x) (of_int y) = of_int (x - y).
Proof.
  intros Hy Hx. destruct y as [|b|b]; [| |lia].
  { rewrite Z.sub_0_r. destruct x as [|a|a]; [done | | lia].
    rewrite of_int_canon by done. done. }
  destruct x as [|a|a]; [lia | | lia].
  assert (Hb : (Zpos b < 2 ^ 53)%Z) by lia.
  pose proof (digits_le_53 a Hx) as Hda. pose proof (digits_le_53 b Hb) as Hdb.
  pose proof (digits_mono b a ltac:(lia)) as Hdab.
  rewrite !of_int_canon by done. unfold canon at 1 2, sub, SFsub.
  set (da := Zpos (digits2_pos a)) in *. set (db := Zpos (digits2_pos b)) in *.
  assert (Hdb1 : (1 <= db)%Z) by (unfold db; lia).
  rewrite Z.min_r by lia. set (kb := Z.to_nat (53 - db)).
  assert (Ha : fst (shl_align (shl_nat (Z.to_nat (53 - da)) a) (da - 53) (db - 53))
               = shl_nat kb a).
  { unfold shl_align. destruct (db - 53 - (da - 53))%Z as [|q|q] eqn:E; simpl.
    - unfold kb. f_equal. lia.
    - lia.
    - rewrite pos_iter_shl, shl_nat_add. unfold kb. f_equal. lia. }
  assert (Hb' : fst (shl_align (shl_nat kb b) (db - 53) (db - 53)) = shl_nat kb b).
  { unfold shl_align. by rewrite Z.sub_diag. }
  rewrite Ha, Hb'. unfold cond_Zopp.
  rewrite !shl_nat_Z.
  replace (db - 53)%Z with (- Z.of_nat kb)%Z by lia.
  destruct (Z.eq_dec (Zpos a) (Zpos b)) as [Heq|Hne].
  - rewrite Heq, !Z.sub_diag. done.
  - assert (Hlt : (b < a)%positive) by lia.
    replace (Z.pos a * 2 ^ Z.of_nat kb - Z.pos b * 2 ^ Z.of_nat kb)%Z
      with (Zpos (shl_nat kb (a - b))).
    2:{ rewrite shl_nat_Z, Pos2Z.inj_sub by done. lia. }
    rewrite <- Pos2Z.inj_sub by done. unfold binary_normalize.
    rewrite binary_round_shl, of_int_canon; [done | |].
    + rewrite Pos2Z.inj_sub by done. lia.
    + apply digits_le_53. rewrite Pos2Z.inj_sub by done. lia.
Qed.

(** ** The test system of initMatrix *)

Lemma int_wrap_id z : (-2147483648 <= z <= INT_MAX)%Z -> int_wrap z = z.
Proof.
  unfold INT_MAX, int_wrap. intros Hz. rewrite Z.mod_small; lia.
Qed.

Lemma init_entry_value n i j :
  (2 * Z.of_nat n <= INT_MAX)%Z -> i < n -> j < n ->
  init_entry i j = of_int (2 * (Z.of_nat (i `min` j) + 1))%Z.
Proof.
  unfold INT_MAX. intros Hn Hi Hj. unfold init_entry. f_equal.
  destruct (Nat.ltb_spec j i).
  - rewrite (int_wrap_id (Z.of_nat j + 1)) by (unfold INT_MAX; lia).
    rewrite int_wrap_id by (unfold INT_MAX; lia). lia.
  - rewrite (int_wrap_id (Z.of_nat i + 1)) by (unfold INT_MAX; lia).
    rewrite int_wrap_id by (unfold INT_MAX; lia). lia.
Qed.

Lemma initMatrix_cells n st :
  wf n st ->
  let st' := initMatrix n st in
  wf n st' /\ C st' = C st /\
  (forall i j, i < n -> j < n -> mget st' i j = init_entry i j) /\
  (forall i, i < n -> bget st' i = of_int (Z.of_nat i)).
Proof.
  intros Hwf. unfold initMatrix. simpl.
  set (P := fun i t =>
    wf n t /\ C t = C st /\
    (forall r c, r < i -> c < n -> mget t r c = init_entry r c) /\
    (forall r, r < i -> bget t r = of_int (Z.of_nat r))).
  enough (P n (for_up 0 n (fun i t =>
      bset i (of_int (Z.of_nat i))
        (for_up 0 n (fun j t' => mset i j (init_entry i j) t') t)) st)) by done.
  apply for_up_ind; unfold P; [lia | |].
  - split; [done|]. split; [done|]. split; intros; lia.
  - intros i t Hi (Hw & HC & HM & HB).
    set (Q := fun j t' =>
      wf n t' /\ C t' = C t /\ B t' = B t /\
      forall r c, mget t' r c =
        if decide (r = i /\ c < j) then init_entry i c else mget t r c).
    assert (HQ : Q n (for_up 0 n (fun j t' => mset i j (init_entry i j) t') t)).
    { apply for_up_ind; unfold Q; [lia | |].
      - do 3 (split; [done|]). intros r c. rewrite decide_False; [done | lia].
      - intros j t' Hj (Hw' & HC' & HB' & HM').
        split; [by apply wf_mset|]. do 2 (split; [done|]).
        intros r c. erewrite mget_mset by (done || lia). rewrite HM'.
        repeat case_decide; try done; try lia;
          intuition (subst; (done || lia)). }
    destruct HQ as (Hw' & HC' & HB' & HM').
    split; [by apply wf_bset|]. split; [simpl; congruence|]. split.
    + intros r c Hr Hc.
      change (mget (bset i _ ?t) r c) with (mget t r c). rewrite HM'.
      case_decide as Hd; [by destruct Hd as [-> _]|].
      apply HM; [|done]. lia.
    + intros r Hr. erewrite bget_bset by (done || lia).
      case_decide as Hd; [by subst|].
      unfold bget. rewrite HB'. apply HB. lia.
Qed.

Lemma of_int_fits n r :
  (2 * Z.of_nat n <= INT_MAX)%Z -> r < n -> (2 * Z.of_nat r + 2 < 2 ^ 53)%Z.
Proof. unfold INT_MAX. intros Hn Hr. change (2 ^ 53)%Z with 9007199254740992%Z. lia. Qed.

(** One step of the elimination on the test system. *)
Lemma test_system_step n k st :
  (2 * Z.of_nat n <= INT_MAX)%Z -> k < n -> reduced_upto n k st ->
  exists st', gauss_step n k st = Done st' /\ reduced_upto n (S k) st'.
Proof.
  intros Hn Hk (Hwf & Hone & Hb & Hint & Hrhs).
  assert (Hcol : forall i, k <= i < n -> mget st i k = two).
  { intros i Hi. rewrite Hint by lia.
    by replace (2 * (Z.of_nat (i `min` k) - Z.of_nat k + 1))%Z with 2%Z by lia. }
  assert (Hrowk : forall c, k <= c < n -> mget st k c = two).
  { intros c Hc. rewrite Hint by lia.
    by replace (2 * (Z.of_nat (k `min` c) - Z.of_nat k + 1))%Z with 2%Z by lia. }
  assert (Hnan : column_no_nan n k st).
  { intros i Hi. by rewrite Hcol. }
  assert (Hrow : pivot_row n k st = k).
  { destruct (pivot_scan_max n k st Hk Hnan) as (Hr & _ & Hlt).
    destruct (decide (pivot_row n k st = k)) as [|Hne]; [done|].
    specialize (Hlt k ltac:(lia)). rewrite !Hcol in Hlt by lia. done. }
  assert (Hbig : pivot_big n k st = two).
  { destruct (pivot_scan_range n k st Hk) as [_ ->]. by rewrite Hrow, Hcol by lia. }
  assert (Hswap : pivot_swap n k st = st).
  { unfold pivot_swap. by rewrite Hrow, Nat.eqb_refl. }
  exists (eliminate n k (normalize n k st)). split.
  { unfold gauss_step. by rewrite getPivot_unfold, Hbig, Hswap. }
  destruct (normalize_cells n k st Hwf Hk) as (Hw2 & _ & HM2 & HB2).
  destruct (eliminate_cells n k _ Hw2 Hk) as (Hw3 & _ & HM3 & HB3).
  assert (HM2' : forall r c, mget (normalize n k st) r c =
     if decide (r = k /\ k <= c < n)
     then if decide (c = k) then one else div (mget st k c) two
     else mget st r c).
  { intros r c. by rewrite HM2, (Hcol k) by lia. }
  assert (HB2' : forall r, bget (normalize n k st) r =
     if decide (r = k) then div (bget st k) two else bget st r).
  { intros r. by rewrite HB2, (Hcol k) by lia. }
  clear HM2 HB2. rename HM2' into HM2, HB2' into HB2.
  assert (Hpiv : forall c, k <= c < n -> mget (normalize n k st) k c = one).
  { intros c Hc. rewrite HM2, decide_True by done.
    case_decide; [done|]. by rewrite Hrowk. }
  assert (Hbk : bget (normalize n k st) k = if k =? 0 then zero else half).
  { rewrite HB2, decide_True by done. rewrite Hrhs by lia. unfold pending_rhs.
    destruct (Nat.eqb_spec k 0) as [->|Hk0]; [done|].
    by replace (Z.of_nat k - Z.of_nat k + 1)%Z with 1%Z by lia. }
  split; [done|]. split; [|split; [|split]].
  - intros r c Hr Hc. rewrite HM3, decide_False by lia.
    destruct (decide (r = k)) as [->|Hne]; [by apply Hpiv|].
    rewrite HM2, decide_False by lia. apply Hone; lia.
  - intros r Hr. rewrite HB3, decide_False by lia.
    destruct (decide (r = k)) as [->|Hne]; [done|].
    rewrite HB2, decide_False by done. apply Hb. lia.
  - intros r c Hr Hc. rewrite HM3, decide_True by lia. unfold reduced_cell.
    rewrite decide_False, decide_True by lia. rewrite Hpiv by lia.
    rewrite !HM2, !decide_False by lia. rewrite Hcol, Hint by lia.
    change (mul two one) with (of_int 2).
    pose proof (of_int_fits n (r `min` c) Hn ltac:(lia)).
    rewrite sub_of_int by lia. f_equal. lia.
  - intros r Hr. rewrite HB3, decide_True by lia. rewrite Hbk.
    rewrite HM2, HB2, !decide_False by lia. rewrite Hcol, Hrhs by lia.
    unfold pending_rhs. pose proof (of_int_fits n r Hn ltac:(lia)).
    destruct (Nat.eqb_spec k 0) as [->|Hk0]; simpl Nat.eqb; cbv iota.
    + change (mul two zero) with (of_int 0).
      rewrite sub_of_int by lia. f_equal. lia.
    + change (mul two half) with (of_int 1).
      rewrite sub_of_int by lia. f_equal. lia.
Qed.

Lemma initMatrix_reduced n st :
  (2 * Z.of_nat n <= INT_MAX)%Z -> wf n st -> reduced_upto n 0 (initMatrix n st).
Proof.
  intros Hn Hwf.
  destruct (initMatrix_cells n st Hwf) as (Hw & _ & HM & HB).
  split; [done|]. split; [intros; lia|]. split; [intros; lia|]. split.
  - intros r c Hr Hc. rewrite HM by lia.
    rewrite (init_entry_value n) by (done || lia). f_equal. lia.
  - intros r Hr. by rewrite HB by lia.
Qed.

(** The elimination of the test system completes, with ones on and above
    the diagonal and the right-hand side [0, 0.5, ..., 0.5]. *)
Lemma test_system_eliminated n st :
  (2 * Z.of_nat n <= INT_MAX)%Z -> wf n st ->
  exists st', computeGauss n (initMatrix n st) = Done st' /\ reduced_upto n n st'.
Proof.
  intros Hn Hwf. unfold computeGauss.
  apply (for_upM_total (reduced_upto n)); [lia | by apply initMatrix_reduced |].
  intros k s Hk Hs. apply test_system_step; (done || lia).
Qed.

Lemma foldl_fixed {A B} (f : A -> B -> A) (a : A) (l : list B) :
  (forall x, x ∈ l -> f a x = a) -> foldl f a l = a.
Proof.
  induction l as [|x l IH]; intros Hf; [done|]. simpl.
  rewrite Hf by left. apply IH. intros y Hy. apply Hf. by right.
Qed.

(** Back-substitution of one row of the eliminated test system, the rows
    below it being solved. *)
Lemma test_system_row n st x row :
  2 <= n -> reduced_upto n n st -> row < n ->
  (forall col, row < col < n -> x !!! col = expected n col) ->
  back_sub_row st x n row = expected n row.
Proof.
  intros Hn (_ & Hone & Hb & _) Hrow Hx. unfold back_sub_row, cols_down.
  rewrite Hb by done.
  destruct (decide (row = n - 1)) as [->|Hlast].
  { replace (n - (n - 1 + 1)) with 0 by lia. simpl. unfold expected.
    destruct (Nat.eqb_spec (n - 1) 0); [lia|]. by rewrite Nat.eqb_refl. }
  replace (n - (row + 1)) with (S (n - (row + 2))) by lia.
  rewrite seq_S, rev_unit. simpl.
  replace (row + 1 + (n - (row + 2))) with (n - 1) by lia.
  rewrite Hone, Hx by lia.
  assert (Hlastv : expected n (n - 1) = half).
  { unfold expected. destruct (Nat.eqb_spec (n - 1) 0); [lia|].
    by rewrite Nat.eqb_refl. }
  rewrite Hlastv.
  set (f := fun acc col => sub acc (mul (mget st row col) (x !!! col))).
  assert (Hmid : forall acc, sub acc (mul one zero) = acc ->
            foldl f acc (rev (seq (row + 1) (n - (row + 2)))) = acc).
  { intros acc Hacc. apply foldl_fixed.
    intros col Hcol%list_elem_of_In%in_rev%in_seq. unfold f.
    rewrite Hone, Hx by lia. unfold expected.
    destruct (Nat.eqb_spec col 0); [lia|].
    destruct (Nat.eqb_spec col (n - 1)); [lia|]. done. }
  unfold expected. destruct (Nat.eqb_spec row 0) as [->|Hr0].
  - by apply Hmid.
  - destruct (Nat.eqb_spec row (n - 1)); [lia|]. by apply Hmid.
Qed.

(** The solution of the eliminated test system. *)
Lemma test_system_solved n st :
  2 <= n -> reduced_upto n n st ->
  forall row, row < n -> cget (solveGauss n st) row = expected n row.
Proof.
  intros Hn Hred. pose proof Hred as (Hwf & _).
  destruct (solveGauss_rows n st Hwf ltac:(lia)) as (_ & _ & _ & Hx).
  assert (Hall : forall d row, row < n -> n - row <= d ->
            cget (solveGauss n st) row = expected n row).
  { induction d as [|d IH]; intros row Hrow Hd; [lia|].
    rewrite Hx by done. apply test_system_row; try done.
    intros col Hcol. apply (IH col); lia. }
  intros row Hrow. apply (Hall (n - row)); lia.
Qed.

(** The verification loop of [main] passes on the expected solution. *)
Lemma verify_expected n st :
  (forall i, i < n -> cget st i = expected n i) -> verify n st = Done st.
Proof.
  intros Hx. unfold verify.
  destruct (for_upM_total (fun _ s => s = st) 0 n
    (fun i s =>
       if i =? 0 then if eqb (cget s i) mhalf then Done s else AssertFailed
       else if i =? n - 1
            then if eqb (cget s i) half then Done s else AssertFailed
            else if eqb (cget s i) (of_int 0) then Done s else AssertFailed) st)
    as (s' & Hs' & ->); [lia | done | | done].
  intros i s Hi ->. exists st. split; [|done].
  rewrite Hx by lia. unfold expected.
  destruct (i =? 0); [done|]. by destruct (i =? n - 1).
Qed.

(** C1. For every dimension [n >= 2] whose entries [2*(i+1)] fit a C
    [int], the pipeline on the initialisation [A[i][j] = 2*(j+1)] when
    [j < i] else [2*(i+1)], [b[i] = i] completes and leaves the doubles
    [x[0] = -0.5], [x[n-1] = 0.5] and [x[i] = 0.0] in between, which the
    verification loop of [main] accepts with its exact comparisons. *)
Theorem pipeline_solution n st :
  wf n st -> 2 <= n -> (2 * Z.of_nat n <= INT_MAX)%Z ->
  exists st', pipeline n st = Done st' /\
    cget st' 0 = mhalf /\ cget st' (n - 1) = half /\
    (forall i, 0 < i < n - 1 -> cget st' i = zero) /\
    verify n st' = Done st'.
Proof.
  intros Hwf Hn Hint.
  destruct (test_system_eliminated n st Hint Hwf) as (st1 & Hrun & Hred).
  pose proof (test_system_solved n st1 Hn Hred) as Hx.
  exists (solveGauss n st1). split.
  { unfold pipeline, solve. by rewrite Hrun. }
  split; [|split; [|split]].
  - by rewrite Hx by lia.
  - rewrite Hx by lia. unfold expected.
    destruct (Nat.eqb_spec (n - 1) 0); [lia|]. by rewrite Nat.eqb_refl.
  - intros i Hi. rewrite Hx by lia. unfold expected.
    destruct (Nat.eqb_spec i 0); [lia|].
    by destruct (Nat.eqb_spec i (n - 1)); [lia|].
  - by apply verify_expected.
Qed.

Lemma pipeline_solution_witness :
  exists st', pipeline 4 (uniform_buffers S754_nan 4) = Done st' /\
    cget st' 0 = mhalf /\ cget st' (4 - 1) = half /\
    (forall i, 0 < i < 4 - 1 -> cget st' i = zero) /\
    verify 4 st' = Done st'.
Proof.
  apply (pipeline_solution 4 (uniform_buffers S754_nan 4)).
  - apply wf_uniform_buffers.
  - lia.
  - unfold INT_MAX. lia.
Defined.

(** * Further properties of the code *)

(** ** The solution buffer during the elimination *)

Lemma with_C_id st : with_C (C st) st = st.
Proof. by destruct st. Qed.

Lemma wf_with_C n c st : wf n st -> length c = n -> wf n (with_C c st).
Proof. intros (Hm & Hr & Hb & _) Hc. by repeat split. Qed.

Section Commute.
Context {S : Type} (g : S -> S).

(** A loop commutes with a transformation its body commutes with. *)
Lemma for_up_commute lo hi (body : nat -> S -> S) s :
  (forall i s, body i (g s) = g (body i s)) ->
  for_up lo hi body (g s) = g (for_up lo hi body s).
Proof.
  intros Hb. unfold for_up. revert s.
  induction (seq lo (hi - lo)) as [|i l IH]; intros s; [done|].
  simpl. by rewrite Hb, IH.
Qed.

Lemma for_upM_commute lo hi (body : nat -> S -> outcome S) s :
  (forall i s, body i (g s) = (s' ← body i s; Done (g s'))) ->
  for_upM lo hi body (g s) = (s' ← for_upM lo hi body s; Done (g s')).
Proof.
  intros Hb. unfold for_upM.
  induction (seq lo (hi - lo)) as [|i l IH] using rev_ind; [done|].
  rewrite !foldl_snoc, IH.
  destruct (foldl _ (Done s) l) as [s1| |]; [|done..]. simpl. apply Hb.
Qed.

End Commute.

Lemma normalize_with_C n k c st :
  normalize n k (with_C c st) = with_C c (normalize n k st).
Proof.
  unfold normalize.
  change (mget (with_C c st) k k) with (mget st k k).
  destruct (negb (eqb (mget st k k) one)); [|done].
  change (mset k k one (with_C c st)) with (with_C c (mset k k one st)).
  by rewrite (for_up_commute (with_C c)).
Qed.

Lemma getPivot_with_C n k c st :
  getPivot n k (with_C c st) = (st' ← getPivot n k st; Done (with_C c st')).
Proof.
  rewrite !getPivot_unfold.
  change (pivot_big n k (with_C c st)) with (pivot_big n k st).
  destruct (eqb (pivot_big n k st) zero); [done|]. simpl. f_equal.
  rewrite <- normalize_with_C. f_equal. unfold pivot_swap.
  change (pivot_row n k (with_C c st)) with (pivot_row n k st).
  by destruct (negb _).
Qed.

Lemma eliminate_with_C n k c st :
  eliminate n k (with_C c st) = with_C c (eliminate n k st).
Proof.
  unfold eliminate. apply (for_up_commute (with_C c)).
  intros j s. unfold eliminate_row.
  change (mget (with_C c s) j k) with (mget s j k).
  change (mset j k zero (with_C c s)) with (with_C c (mset j k zero s)).
  by rewrite (for_up_commute (with_C c)).
Qed.

(** The elimination carries [C] along without reading it. *)
Lemma computeGauss_with_C n c st :
  computeGauss n (with_C c st) = (st' ← computeGauss n st; Done (with_C c st')).
Proof.
  unfold computeGauss. apply (for_upM_commute (with_C c)).
  intros k s. unfold gauss_step. rewrite getPivot_with_C.
  destruct (getPivot n k s) as [s1| |]; [|done..]. simpl.
  by rewrite eliminate_with_C.
Qed.

(** ** What the elimination keeps *)

Lemma gauss_step_keeps n k st st' :
  wf n st -> k < n -> gauss_step n k st = Done st' ->
  wf n st' /\ C st' = C st /\
  forall r, r < k -> bget st' r = bget st r /\
                     forall c, mget st' r c = mget st r c.
Proof.
  intros Hwf Hk Hstep. unfold gauss_step in Hstep.
  destruct (getPivot n k st) as [st2| |] eqn:Hp; [|done..].
  simpl in Hstep. injection Hstep as <-.
  destruct (getPivot_Done n k st st2 Hwf Hk Hp) as (-> & Hw2 & _).
  destruct (pivot_scan_range n k st Hk) as [Hr _].
  destruct (pivot_swap_cells n k st Hwf Hk) as (Hw1 & HC1 & HM1 & HB1).
  destruct (normalize_cells n k _ Hw1 Hk) as (_ & HC2 & HM2 & HB2).
  destruct (eliminate_cells n k _ Hw2 Hk) as (Hw3 & HC3 & HM3 & HB3).
  split; [done|]. split; [congruence|].
  intros r Hrk.
  assert (Ht : transpose (pivot_row n k st) k r = r).
  { unfold transpose. repeat case_decide; lia. }
  split.
  - rewrite HB3, decide_False by lia. rewrite HB2, decide_False by lia.
    by rewrite HB1, Ht.
  - intros c. rewrite HM3, decide_False by lia.
    rewrite HM2, decide_False by lia. by rewrite HM1, Ht.
Qed.

Lemma gauss_step_outcome n k st :
  (exists st', gauss_step n k st = Done st') \/
  gauss_step n k st = Exit MsgSingular (-1)%Z.
Proof.
  unfold gauss_step. rewrite getPivot_unfold.
  destruct (eqb (pivot_big n k st) zero); [by right|]. left. by eexists.
Qed.

Lemma gauss_range_outcome n lo hi st :
  (exists st', for_upM lo hi (gauss_step n) st = Done st') \/
  for_upM lo hi (gauss_step n) st = Exit MsgSingular (-1)%Z.
Proof.
  destruct (Nat.le_gt_cases lo hi) as [Hle|Hgt].
  2:{ left. exists st. apply for_upM_nil. lia. }
  induction Hle as [|hi Hle IH].
  - left. exists st. by apply for_upM_nil.
  - rewrite for_upM_last by done.
    destruct IH as [[s1 ->]| ->]; [|by right]. simpl.
    apply gauss_step_outcome.
Qed.

Lemma gauss_range_keeps n lo hi st st' :
  wf n st -> lo <= hi <= n -> for_upM lo hi (gauss_step n) st = Done st' ->
  wf n st' /\ C st' = C st /\
  forall r, r < lo -> bget st' r = bget st r /\
                      forall c, mget st' r c = mget st r c.
Proof.
  intros Hwf Hle.
  apply (for_upM_ind (fun _ s =>
    wf n s /\ C s = C st /\
    forall r, r < lo -> bget s r = bget st r /\
                        forall c, mget s r c = mget st r c)); [lia | done |].
  intros k s s' Hk (Hw & HC & Hrows) Hstep.
  destruct (gauss_step_keeps n k s s' Hw ltac:(lia) Hstep) as (Hw' & HC' & Hr').
  split; [done|]. split; [congruence|].
  intros r Hr. destruct (Hr' r ltac:(lia)) as [Hb Hm].
  destruct (Hrows r Hr) as [Hb0 Hm0]. split; [congruence|].
  intros c. by rewrite Hm, Hm0.
Qed.

(** X4. The elimination either completes, with the buffers at their dimension
    and [C] as it was, or stops on the singular exit: it never fails an
    assertion and never writes the solution buffer. *)
Theorem computeGauss_outcome n st :
  wf n st ->
  (exists st', computeGauss n st = Done st' /\ wf n st' /\ C st' = C st) \/
  computeGauss n st = Exit MsgSingular (-1)%Z.
Proof.
  intros Hwf. unfold computeGauss.
  destruct (gauss_range_outcome n 0 n st) as [[st' Hrun]|Hrun]; [|by right].
  left. exists st'. split; [done|].
  destruct (gauss_range_keeps n 0 n st st' Hwf ltac:(lia) Hrun) as (Hw & HC & _).
  done.
Qed.

Lemma computeGauss_outcome_witness :
  (exists st', computeGauss 2 singular_state = Done st' /\ wf 2 st' /\
               C st' = C singular_state) \/
  computeGauss 2 singular_state = Exit MsgSingular (-1)%Z.
Proof. apply computeGauss_outcome. apply wfb_wf. reflexivity. Defined.

(** X5. Each step is committed: row [k] of the matrix and [b[k]] are, at the
    end of the elimination, what step [k] left. *)
Theorem computeGauss_row_committed n k st sk st' :
  wf n st -> k < n ->
  gauss_upto n (S k) st = Done sk -> computeGauss n st = Done st' ->
  bget st' k = bget sk k /\ forall c, mget st' k c = mget sk k c.
Proof.
  intros Hwf Hk Hsk Hrun. unfold gauss_upto, computeGauss in *.
  rewrite (for_upM_split 0 (S k) n) in Hrun by lia. rewrite Hsk in Hrun.
  simpl in Hrun.
  destruct (gauss_range_keeps n 0 (S k) st sk Hwf ltac:(lia) Hsk) as (Hw & _).
  destruct (gauss_range_keeps n (S k) n sk st' Hw ltac:(lia) Hrun)
    as (_ & _ & Hrows).
  apply Hrows. lia.
Qed.

Lemma computeGauss_row_committed_witness :
  let st := initMatrix 3 (uniform_buffers S754_nan 3) in
  exists sk st', gauss_upto 3 1 st = Done sk /\ computeGauss 3 st = Done st' /\
    bget st' 0 = bget sk 0 /\ forall c, mget st' 0 c = mget sk 0 c.
Proof.
  eexists. eexists. split; [vm_compute; reflexivity|].
  split; [vm_compute; reflexivity|].
  apply (computeGauss_row_committed 3 0
           (initMatrix 3 (uniform_buffers S754_nan 3)));
    [apply wfb_wf; reflexivity | lia | vm_compute; reflexivity
    | vm_compute; reflexivity].
Defined.

(** ** What back-substitution depends on *)

Lemma back_sub_row_with_C c st x n row :
  back_sub_row (with_C c st) x n row = back_sub_row st x n row.
Proof. done. Qed.

(** [solveGauss] overwrites the whole of [C]: its result does not depend
    on what [C] held. *)
Lemma solveGauss_with_C n c st :
  wf n st -> length c = n -> 1 <= n ->
  solveGauss n (with_C c st) = solveGauss n st.
Proof.
  intros Hwf Hc Hn.
  destruct (solveGauss_rows n st Hwf Hn) as (Hw1 & HM1 & HB1 & Hx1).
  destruct (solveGauss_rows n (with_C c st) (wf_with_C n c st Hwf Hc) Hn)
    as (Hw2 & HM2 & HB2 & Hx2).
  simpl in *. setoid_rewrite back_sub_row_with_C in Hx2.
  assert (Hall : forall d row, row < n -> n - row <= d ->
            cget (solveGauss n (with_C c st)) row = cget (solveGauss n st) row).
  { induction d as [|d IH]; intros row Hrow Hd; [lia|].
    rewrite Hx1, Hx2 by done. apply back_sub_row_ext.
    intros col Hcol. apply (IH col); lia. }
  destruct (solveGauss n st) as [m1 b1 c1] eqn:E1.
  destruct (solveGauss n (with_C c st)) as [m2 b2 c2] eqn:E2.
  simpl in *. f_equal; [congruence | congruence |].
  destruct Hw1 as (_ & _ & _ & Hl1), Hw2 as (_ & _ & _ & Hl2). simpl in *.
  apply (list_eq_same_length _ _ n); [done..|].
  intros i x y Hi Hx Hy. specialize (Hall (n - i) i Hi ltac:(lia)).
  unfold cget in Hall. simpl in Hall.
  apply list_lookup_total_correct in Hx, Hy. congruence.
Qed.

(** X3. [solveGauss] writes every cell of [C] from the matrix and [B] alone:
    two states that agree on the matrix and on [B] get the same result,
    whatever their solution buffers held. *)
Theorem solveGauss_overwrites_C n st1 st2 :
  wf n st1 -> wf n st2 -> 1 <= n ->
  matrix st1 = matrix st2 -> B st1 = B st2 ->
  solveGauss n st1 = solveGauss n st2.
Proof.
  intros Hw1 Hw2 Hn HM HB.
  rewrite <- (solveGauss_with_C n (C st1) st2) by (done || apply Hw1).
  f_equal. destruct st1, st2. simpl in *. by subst.
Qed.

Lemma solveGauss_overwrites_C_witness :
  solveGauss 3 rounding_state =
  solveGauss 3 (with_C [S754_nan; one; mhalf] rounding_state).
Proof.
  apply (solveGauss_overwrites_C 3); try reflexivity;
    [apply wfb_wf; reflexivity | apply wfb_wf; reflexivity | lia].
Defined.

(** ** What initMatrix depends on *)

Lemma matrix_ext n st1 st2 :
  wf n st1 -> wf n st2 ->
  (forall i j, i < n -> j < n -> mget st1 i j = mget st2 i j) ->
  matrix st1 = matrix st2.
Proof.
  intros (Hm1 & Hr1 & _) (Hm2 & Hr2 & _) HM. unfold mget in HM.
  apply (list_eq_same_length _ _ n); [done..|].
  intros i r1 r2 Hi H1 H2.
  apply (list_eq_same_length _ _ n); [by eapply Hr2 | by eapply Hr1 |].
  intros j x y Hj Hx Hy. specialize (HM i j Hi Hj).
  rewrite (list_lookup_total_correct _ _ _ H1) in HM.
  rewrite (list_lookup_total_correct _ _ _ H2) in HM.
  rewrite (list_lookup_total_correct _ _ _ Hx) in HM.
  by rewrite (list_lookup_total_correct _ _ _ Hy) in HM.
Qed.

Lemma B_ext n st1 st2 :
  wf n st1 -> wf n st2 ->
  (forall i, i < n -> bget st1 i = bget st2 i) ->
  B st1 = B st2.
Proof.
  intros (_ & _ & Hb1 & _) (_ & _ & Hb2 & _) HB. unfold bget in HB.
  apply (list_eq_same_length _ _ n); [done..|].
  intros i x y Hi Hx Hy. specialize (HB i Hi).
  rewrite (list_lookup_total_correct _ _ _ Hx) in HB.
  by rewrite (list_lookup_total_correct _ _ _ Hy) in HB.
Qed.

Lemma initMatrix_with_C n st1 st2 :
  wf n st1 -> wf n st2 ->
  initMatrix n st1 = with_C (C st1) (initMatrix n st2).
Proof.
  intros Hw1 Hw2.
  destruct (initMatrix_cells n st1 Hw1) as (Hi1 & HC1 & HM1 & HB1).
  destruct (initMatrix_cells n st2 Hw2) as (Hi2 & HC2 & HM2 & HB2).
  assert (HM : matrix (initMatrix n st1) = matrix (initMatrix n st2)).
  { apply (matrix_ext n); [done..|]. intros i j Hi Hj. by rewrite HM1, HM2. }
  assert (HB : B (initMatrix n st1) = B (initMatrix n st2)).
  { apply (B_ext n); [done..|]. intros i Hi. by rewrite HB1, HB2. }
  unfold with_C. rewrite <- HM, <- HB, <- HC1. by destruct (initMatrix n st1).
Qed.

(** X1. [initMatrix] assigns every cell of the matrix and of [B] and leaves
    [C] alone: the system it builds does not depend on what the buffers
    held, and the matrix is symmetric. *)
Theorem initMatrix_overwrites n st1 st2 :
  wf n st1 -> wf n st2 ->
  matrix (initMatrix n st1) = matrix (initMatrix n st2) /\
  B (initMatrix n st1) = B (initMatrix n st2) /\
  C (initMatrix n st1) = C st1 /\
  wf n (initMatrix n st1) /\
  forall i j, i < n -> j < n ->
    mget (initMatrix n st1) i j = mget (initMatrix n st1) j i.
Proof.
  intros Hw1 Hw2.
  destruct (initMatrix_cells n st1 Hw1) as (Hi1 & HC1 & HM1 & HB1).
  rewrite (initMatrix_with_C n st1 st2) by done.
  split; [done|]. split; [done|]. split; [done|].
  rewrite <- (initMatrix_with_C n st1 st2) by done. split; [done|].
  intros i j Hi Hj. rewrite !HM1 by done. unfold init_entry.
  destruct (Nat.ltb_spec j i), (Nat.ltb_spec i j); try done; try lia.
  by replace j with i by lia.
Qed.

Lemma initMatrix_overwrites_witness :
  let st1 := uniform_buffers S754_nan 3 in
  let st2 := uniform_buffers one 3 in
  matrix (initMatrix 3 st1) = matrix (initMatrix 3 st2) /\
  B (initMatrix 3 st1) = B (initMatrix 3 st2) /\
  C (initMatrix 3 st1) = C st1 /\
  wf 3 (initMatrix 3 st1) /\
  forall i j, i < 3 -> j < 3 ->
    mget (initMatrix 3 st1) i j = mget (initMatrix 3 st1) j i.
Proof.
  apply (initMatrix_overwrites 3); apply wf_uniform_buffers.
Defined.

(** ** The pipeline and uninitialised memory *)

Lemma solve_with_C n c st :
  wf n st -> length c = n -> 1 <= n ->
  solve n (with_C c st) = solve n st.
Proof.
  intros Hwf Hc Hn. unfold solve. rewrite computeGauss_with_C.
  destruct (computeGauss n st) as [st'| |] eqn:E; [|done..]. simpl.
  f_equal. apply solveGauss_with_C; [|done..].
  destruct (gauss_range_keeps n 0 n st st' Hwf ltac:(lia) E) as (Hw & _).
  done.
Qed.

(** X2. The result of the pipeline, buffers included, does not depend on the
    content of the memory [allocate_memory] returned. *)
Theorem pipeline_ignores_garbage n st1 st2 :
  wf n st1 -> wf n st2 -> 1 <= n -> pipeline n st1 = pipeline n st2.
Proof.
  intros Hw1 Hw2 Hn. unfold pipeline.
  rewrite (initMatrix_with_C n st1 st2) by done.
  apply solve_with_C; [|apply Hw1|done].
  by destruct (initMatrix_cells n st2 Hw2).
Qed.

Lemma pipeline_ignores_garbage_witness :
  pipeline 3 (uniform_buffers S754_nan 3) = pipeline 3 (uniform_buffers two 3).
Proof.
  apply (pipeline_ignores_garbage 3); [apply wf_uniform_buffers.. | lia].
Defined.

(** ** getPivot: the returned state and the singular exit *)

Lemma abs_below_zero x z :
  eqb z zero = true -> leb (SFabs x) (SFabs z) = true -> eqb x zero = true.
Proof.
  unfold eqb, leb, SFeqb, SFleb. float_cases z; by float_cases x.
Qed.

(** X6. The state a completed [getPivot] returns, cell by cell: row [k] holds
    the selected row [r], divided by its pivot from the diagonal on unless
    the pivot is [1.0]; row [r] holds the old row [k]; the other rows, and
    [C], are untouched; the pivot was not a zero. *)
Theorem getPivot_result n k st st' :
  wf n st -> k < n -> getPivot n k st = Done st' ->
  let r := pivot_row n k st in
  let pivotVal := mget st r k in
  k <= r < n /\ eqb pivotVal zero = false /\
  wf n st' /\ C st' = C st /\
  mget st' k k = one /\
  (forall c, c < k -> mget st' k c = mget st r c) /\
  (forall c, k < c < n -> mget st' k c = norm_val pivotVal (mget st r c)) /\
  bget st' k = norm_val pivotVal (bget st r) /\
  (forall i, i <> k ->
     bget st' i = bget st (transpose r k i) /\
     forall c, mget st' i c = mget st (transpose r k i) c).
Proof.
  intros Hwf Hk Hp. simpl.
  destruct (pivot_scan_range n k st Hk) as [Hr Hbig].
  assert (Hnz : eqb (mget st (pivot_row n k st) k) zero = false).
  { rewrite getPivot_unfold, Hbig, eqb_ABS_zero in Hp.
    by destruct (eqb (mget st (pivot_row n k st) k) zero). }
  destruct (getPivot_Done n k st st' Hwf Hk Hp) as (-> & Hw & Hkk).
  destruct (pivot_swap_cells n k st Hwf Hk) as (Hw1 & HC1 & HM1 & HB1).
  destruct (normalize_cells n k _ Hw1 Hk) as (_ & HC2 & HM2 & HB2).
  assert (Ht : transpose (pivot_row n k st) k k = pivot_row n k st).
  { unfold transpose. by rewrite decide_True. }
  do 2 (split; [done|]). split; [done|]. split; [congruence|].
  split; [done|]. split; [|split; [|split]].
  - intros c Hc. rewrite HM2, decide_False by lia. by rewrite HM1, Ht.
  - intros c Hc. rewrite HM2, decide_True by lia.
    rewrite decide_False by lia. by rewrite !HM1, Ht.
  - rewrite HB2, decide_True by done. by rewrite HM1, HB1, Ht.
  - intros i Hi. split.
    + rewrite HB2, decide_False by done. apply HB1.
    + intros c. rewrite HM2, decide_False by (intros [? _]; done). apply HM1.
Qed.

Lemma getPivot_result_witness :
  let st := mkState [[one; two]; [S754_finite true 4503599627370496 (-51); zero]]
                    [one; mhalf] [zero; zero] in
  exists st', getPivot 2 0 st = Done st' /\
    pivot_row 2 0 st = 1 /\
    mget st' 0 1 = norm_val (mget st 1 0) (mget st 1 1) /\
    bget st' 0 = norm_val (mget st 1 0) (bget st 1) /\
    bget st' 1 = bget st 0.
Proof.
  set (st := mkState _ _ _). simpl.
  eexists. split; [vm_compute; reflexivity|].
  destruct (getPivot_result 2 0 st _ ltac:(apply wfb_wf; reflexivity)
              ltac:(lia) eq_refl) as (_ & _ & _ & _ & _ & _ & H1 & H2 & H3).
  split; [reflexivity|]. split; [apply H1; lia|]. split; [exact H2|].
  apply (H3 1). lia.
Defined.

(** X7. On a column without NaN [getPivot] takes the singular exit exactly
    when every entry of the column from the diagonal down is a zero. *)
Theorem getPivot_singular_iff n k st :
  k < n -> column_no_nan n k st ->
  getPivot n k st = Exit MsgSingular (-1)%Z <-> column_zero n k st.
Proof.
  intros Hk Hnan. split.
  - intros Hp i Hi.
    destruct (pivot_scan_range n k st Hk) as [Hr Hbig].
    destruct (pivot_scan_max n k st Hk Hnan) as (_ & Hmax & _).
    rewrite getPivot_unfold, Hbig, eqb_ABS_zero in Hp.
    destruct (eqb (mget st (pivot_row n k st) k) zero) eqn:E; [|done].
    by apply (abs_below_zero _ (mget st (pivot_row n k st) k)), Hmax.
  - intros Hz. rewrite getPivot_unfold. by rewrite pivot_scan_zero.
Qed.

Lemma getPivot_singular_iff_witness :
  let st := mkState [[one; one]; [zero; zero]] [one; one] [zero; zero] in
  (getPivot 2 1 st = Exit MsgSingular (-1)%Z <-> column_zero 2 1 st) /\
  getPivot 2 1 st = Exit MsgSingular (-1)%Z.
Proof.
  split; [|reflexivity].
  apply getPivot_singular_iff; [lia|].
  intros i Hi. replace i with 1 by lia. reflexivity.
Defined.

(** ** The row exchange and the equations of the system *)

Lemma transpose_inj a b : Inj (=) (=) (transpose a b).
Proof.
  intros i j. unfold transpose. repeat case_decide; congruence.
Qed.

Lemma exchange_lookup_opt {A} `{!Inhabited A} (a b i : nat) (l : list A) :
  a < length l -> b < length l ->
  <[b := l !!! a]> (<[a := l !!! b]> l) !! i = l !! transpose a b i.
Proof.
  intros Ha Hb. unfold transpose.
  destruct (decide (i = b)) as [->|Hib].
  - rewrite list_lookup_insert_eq by (by rewrite length_insert).
    by rewrite list_lookup_lookup_total_lt.
  - rewrite list_lookup_insert_ne by done.
    destruct (decide (i = a)) as [->|Hia].
    + rewrite list_lookup_insert_eq by done.
      by rewrite list_lookup_lookup_total_lt.
    + by rewrite list_lookup_insert_ne.
Qed.

(** X9. Exchanging two rows keeps every equation: the rows with their
    right-hand sides are permuted, the two indices trade places and the
    order of the indices does not matter. *)
Theorem swap_rows_equations n a b st :
  wf n st -> a < n -> b < n ->
  equations (swap_rows a b st) ≡ₚ equations st /\
  (forall i, equations (swap_rows a b st) !! i = equations st !! transpose a b i) /\
  swap_rows a b st = swap_rows b a st.
Proof.
  intros (Hm & _ & HB & _) Ha Hb.
  assert (Hlk : forall i, equations (swap_rows a b st) !! i =
                          equations st !! transpose a b i).
  { intros i. unfold equations, swap_rows, PSWAP, DSWAP. cbn [matrix B].
    rewrite !lookup_zip_with. by rewrite !exchange_lookup_opt by lia. }
  split; [|split; [done|]].
  - apply Permutation_inj. split.
    + unfold equations, swap_rows, PSWAP, DSWAP. cbn [matrix B].
      rewrite !length_zip. by rewrite !exchange_length.
    + exists (transpose a b). split; [apply transpose_inj | done].
  - unfold swap_rows, PSWAP, DSWAP. destruct st as [m v c]. simpl in *.
    f_equal.
    + apply list_eq. intros i. rewrite !exchange_lookup_opt by lia.
      f_equal. unfold transpose. repeat case_decide; congruence.
    + apply list_eq. intros i. rewrite !exchange_lookup_opt by lia.
      f_equal. unfold transpose. repeat case_decide; congruence.
Qed.

Lemma swap_rows_equations_witness :
  let st := mkState [[one; two]; [half; zero]] [one; mhalf] [zero; zero] in
  equations (swap_rows 0 1 st) = [([half; zero], mhalf); ([one; two], one)] /\
  equations (swap_rows 0 1 st) ≡ₚ equations st /\
  (forall i, equations (swap_rows 0 1 st) !! i = equations st !! transpose 0 1 i) /\
  swap_rows 0 1 st = swap_rows 1 0 st.
Proof.
  split; [reflexivity|].
  apply (swap_rows_equations 2); [apply wfb_wf; reflexivity | lia | lia].
Defined.

(** ** The verification loop *)

Lemma verify_upto n k st :
  for_upM 0 k (fun i st =>
    if i =? 0 then
      if eqb (cget st i) mhalf then Done st else AssertFailed
    else if i =? n - 1 then
      if eqb (cget st i) half then Done st else AssertFailed
    else
      if eqb (cget st i) (of_int 0%Z) then Done st else AssertFailed) st =
  if forallb (fun i => eqb (cget st i) (expected n i)) (seq 0 k)
  then Done st else AssertFailed.
Proof.
  induction k as [|k IH]; [done|].
  rewrite for_upM_last by lia. rewrite IH, seq_S, forallb_app. simpl.
  destruct (forallb _ (seq 0 k)); [|done]. simpl. unfold expected.
  rewrite andb_true_r.
  destruct (k =? 0); [done|]. by destruct (k =? n - 1).
Qed.

(** X11. The verification loop leaves the buffers alone and completes exactly
    when every [C[i]] compares equal to the value expected at [i];
    otherwise it stops on the failed assertion, never on an exit.  Since
    the comparison is [==], a negative zero passes for [0]. *)
Theorem verify_accepts n st :
  verify n st = (if solution_ok n st then Done st else AssertFailed) /\
  (verify n st = Done st <->
   forall i, i < n -> eqb (cget st i) (expected n i) = true).
Proof.
  assert (Hv : verify n st = if solution_ok n st then Done st else AssertFailed)
    by apply verify_upto.
  split; [done|]. rewrite Hv. unfold solution_ok.
  destruct (forallb _ _) eqn:E.
  - split; [|done]. intros _ i Hi.
    rewrite forallb_forall in E. apply E, in_seq. lia.
  - split; [done|]. intros Hall.
    assert (forallb (fun i => eqb (cget st i) (expected n i)) (seq 0 n) = true)
      as E'; [|congruence].
    apply forallb_forall. intros i Hi%in_seq. apply Hall. lia.
Qed.

(** ** allocate_memory *)

Lemma allocate_memory_unfold al size :
  allocate_memory al size =
  if mallocs_succeed al size then Done (allocated_buffers al size)
  else AssertFailed.
Proof.
  unfold allocate_memory, mallocs_succeed.
  by repeat (destruct (malloc_ok al _ _); simpl).
Qed.

(** Without overflow the requests are the bytes of [size] and of
    [size*size] doubles. *)
Lemma request_bytes size :
  (0 <= size)%Z -> (size * size <= INT_MAX)%Z ->
  vector_bytes size = (8 * size)%Z /\ matrix_bytes size = (8 * (size * size))%Z.
Proof.
  unfold INT_MAX. intros H0 Hsq.
  assert (size <= 46340)%Z by nia.
  unfold vector_bytes, matrix_bytes, size_t_wrap.
  rewrite int_wrap_id by (unfold INT_MAX; nia).
  rewrite (Z.mod_small size), (Z.mod_small (size * size)) by nia.
  rewrite !Z.mod_small by nia. lia.
Qed.

Lemma length_block_row al k cells off len :
  off + len <= cells -> length (block_row al k cells off len) = len.
Proof.
  intros H. unfold block_row. rewrite length_fmap, length_seq. lia.
Qed.

Lemma wf_allocated_buffers al size :
  (0 <= size)%Z -> (size * size <= INT_MAX)%Z ->
  wf (Z.to_nat size) (allocated_buffers al size).
Proof.
  intros H0 Hsq. destruct (request_bytes size H0 Hsq) as [Hv Hm].
  unfold wf, allocated_buffers. rewrite Hv, Hm. simpl.
  set (n := Z.to_nat size).
  assert (Hcv : Z.to_nat (8 * size / 8) = n).
  { unfold n. f_equal. rewrite Z.mul_comm. by apply Z.div_mul. }
  assert (Hcm : Z.to_nat (8 * (size * size) / 8) = n * n).
  { rewrite Z.mul_comm, Z.div_mul by done. unfold n. lia. }
  rewrite Hcv, Hcm. rewrite length_fmap, length_seq.
  split; [done|]. split; [|split; apply length_block_row; lia].
  intros i row Hrow. apply list_lookup_fmap_Some in Hrow as (j & -> & Hj).
  apply lookup_seq in Hj as [-> Hj]. apply length_block_row. simpl. nia.
Qed.

(** X15. [allocate_memory] either fails one of its four assertions, when
    a call of [malloc] returns no block, or returns buffers; it never
    exits.  For a dimension whose square fits an [int] the buffers it
    returns are a matrix of [size] rows of [size] cells and two vectors of
    [size] cells. *)
Theorem allocate_memory_outcome al size :
  (0 <= size)%Z -> (size * size <= INT_MAX)%Z ->
  (mallocs_succeed al size = true ->
   exists st, allocate_memory al size = Done st /\ wf (Z.to_nat size) st) /\
  (mallocs_succeed al size = false -> allocate_memory al size = AssertFailed).
Proof.
  intros H0 Hsq. rewrite allocate_memory_unfold. split; intros ->; [|done].
  eexists. split; [done|]. by apply wf_allocated_buffers.
Qed.

Lemma allocate_memory_outcome_witness :
  (exists st, allocate_memory (generous S754_nan) 3 = Done st /\
              wf (Z.to_nat 3) st) /\
  allocate_memory (bounded_allocator 64 S754_nan) 3 = AssertFailed.
Proof.
  destruct (allocate_memory_outcome (generous S754_nan) 3 ltac:(lia)
              ltac:(unfold INT_MAX; lia)) as [H1 _].
  destruct (allocate_memory_outcome (bounded_allocator 64 S754_nan) 3
              ltac:(lia) ltac:(unfold INT_MAX; lia)) as [_ H2].
  split; [apply H1; reflexivity | apply H2; reflexivity].
Defined.

(** ** main, end to end *)

(** X12. Whatever the flags were, once they leave a dimension [n >= 2]
    whose square fits an [int] and the four calls of [malloc] return a
    block, the run completes: the elimination finds no singular pivot, the
    verification passes, and after the warnings of the option loop the
    program prints the size, the time and the line that the solution is
    correct. *)
Theorem main_succeeds (atoi : string -> Z) al opts nsize out :
  parse_args atoi opts = Done (nsize, out) ->
  (2 <= nsize)%Z -> (nsize * nsize <= INT_MAX)%Z ->
  mallocs_succeed al nsize = true ->
  exists st,
    main atoi al opts = Done (st, out ++ [MsgSize nsize; MsgTime; MsgCorrect]) /\
    wf (Z.to_nat nsize) st /\
    forall i, i < Z.to_nat nsize -> cget st i = expected (Z.to_nat nsize) i.
Proof.
  intros Hparse Hn Hsq Hmalloc. set (n := Z.to_nat nsize).
  assert (Hint : (2 * Z.of_nat n <= INT_MAX)%Z) by (unfold n, INT_MAX in *; nia).
  pose proof (wf_allocated_buffers al nsize ltac:(lia) Hsq) as Hw0. fold n in Hw0.
  destruct (test_system_eliminated n (allocated_buffers al nsize) Hint Hw0)
    as (st1 & Hrun & Hred).
  pose proof (test_system_solved n st1 ltac:(unfold n; lia) Hred) as Hx.
  pose proof Hred as (Hw1 & _).
  destruct (solveGauss_rows n st1 Hw1 ltac:(unfold n; lia)) as (Hw & _).
  exists (solveGauss n st1). split; [|done].
  unfold main. rewrite Hparse. simpl.
  rewrite allocate_memory_unfold, Hmalloc. simpl. fold n. rewrite Hrun. simpl.
  rewrite verify_expected by done. simpl. by rewrite <- app_assoc.
Qed.

(** The default run: no flag, 1024 rows. *)
Lemma main_succeeds_witness :
  exists st,
    main atoi_five (generous S754_nan) [] =
      Done (st, [] ++ [MsgSize 1024; MsgTime; MsgCorrect]) /\
    wf (Z.to_nat 1024) st /\
    forall i, i < Z.to_nat 1024 -> cget st i = expected (Z.to_nat 1024) i.
Proof.
  apply (main_succeeds atoi_five (generous S754_nan) [] 1024%Z []);
    [reflexivity | lia | unfold INT_MAX; lia | reflexivity].
Defined.

(** X16. When a call of [malloc] returns no block the run stops on the
    failed assertion of [allocate_memory], before anything is initialised
    or solved, whatever the dimension; this is what happens to a dimension
    such as 46341, whose square overflows the [int] product to a request
    of nearly [2^64] bytes, with an allocator that has no such block. *)
Theorem main_out_of_memory (atoi : string -> Z) al opts nsize out :
  parse_args atoi opts = Done (nsize, out) ->
  mallocs_succeed al nsize = false ->
  main atoi al opts = AssertFailed.
Proof.
  intros Hparse Hmalloc. unfold main. rewrite Hparse. simpl.
  by rewrite allocate_memory_unfold, Hmalloc.
Qed.

Lemma main_out_of_memory_witness :
  matrix_bytes 46341 = 18446744056529719496%Z /\
  main (fun _ => 46341%Z) (bounded_allocator 1099511627776 S754_nan)
       [Opt_s "46341"] = AssertFailed.
Proof.
  split; [reflexivity|].
  apply (main_out_of_memory (fun _ => 46341%Z)
           (bounded_allocator 1099511627776 S754_nan) [Opt_s "46341"]
           46341%Z []); reflexivity.
Defined.

(** ** The option loop in closed form *)

(** X13. With only [-s] flags the dimension is the value of the last flag
    whose value is positive, 1024 when there is none, and one warning is
    printed for each flag whose value is not positive. *)
Theorem parse_args_last_positive (atoi : string -> Z) (args : list string) :
  exists out,
    parse_args atoi (Opt_s <$> args) =
      Done (default 1024%Z (last (filter (fun z => 0 < z)%Z (sizes atoi args))),
            out) /\
    length out = length (filter (fun z => ~ (0 < z)%Z) (sizes atoi args)).
Proof.
  unfold sizes. induction args as [|a args IH] using rev_ind.
  - by exists [].
  - destruct IH as (out & Hp & Hlen).
    rewrite !fmap_app, !filter_app. simpl.
    rewrite parse_args_snoc, Hp. simpl.
    destruct (Z.ltb_spec 0 (atoi a)) as [Hpos|Hneg].
    + exists out. rewrite filter_cons_True by done.
      rewrite filter_cons_False by lia. rewrite filter_nil, last_snoc.
      simpl. by rewrite app_nil_r.
    + eexists. rewrite filter_cons_False by lia.
      rewrite filter_cons_True by lia. rewrite !filter_nil, app_nil_r.
      split; [done|]. rewrite !length_app. simpl. lia.
Qed.

(** ** The ABS macro *)

(** X14. [ABS] is the absolute value wherever doubles are compared, and so in
    the scan and in the singular test; as a value it differs at [+0.0],
    which it turns into [-0.0], and it maps a NaN to a NaN.  It is never
    below zero. *)
Theorem ABS_edge_cases x :
  ABS x = match x with S754_zero false => S754_zero true | _ => SFabs x end /\
  (forall y, SFcompare (ABS x) y = SFcompare (SFabs x) y) /\
  ltb (ABS x) zero = false /\
  is_nan (ABS x) = is_nan x.
Proof.
  split; [|split; [|split]].
  - unfold ABS. by float_cases x.
  - apply compare_ABS_l.
  - unfold ltb, SFltb. rewrite compare_ABS_l. by float_cases x.
  - unfold ABS. by float_cases x.
Qed.

(** ** The pivot dominates its column *)

(** X8. After a completed [getPivot] on a column without NaN no entry below
    the diagonal of column [k] exceeds, in absolute value, the pivot that
    was selected: the elimination factors are bounded by it. *)
Theorem getPivot_dominates n k st st' :
  wf n st -> k < n -> column_no_nan n k st -> getPivot n k st = Done st' ->
  forall j, k < j < n ->
    leb (SFabs (mget st' j k)) (SFabs (mget st (pivot_row n k st) k)) = true.
Proof.
  intros Hwf Hk Hnan Hp j Hj.
  destruct (pivot_scan_max n k st Hk Hnan) as (Hr & Hmax & _).
  destruct (getPivot_Done n k st st' Hwf Hk Hp) as (-> & _ & _).
  destruct (pivot_swap_cells n k st Hwf Hk) as (Hw1 & _ & HM1 & _).
  destruct (normalize_cells n k _ Hw1 Hk) as (_ & _ & HM2 & _).
  rewrite HM2, decide_False by lia. rewrite HM1. apply Hmax.
  unfold transpose. repeat case_decide; lia.
Qed.

Lemma getPivot_dominates_witness :
  let st := mkState [[one; two]; [S754_finite true 4503599627370496 (-51); zero]]
                    [one; mhalf] [zero; zero] in
  exists st', getPivot 2 0 st = Done st' /\
    forall j, 0 < j < 2 ->
      leb (SFabs (mget st' j 0)) (SFabs (mget st (pivot_row 2 0 st) 0)) = true.
Proof.
  set (st := mkState _ _ _). simpl.
  eexists. split; [vm_compute; reflexivity|].
  apply (getPivot_dominates 2 0 st);
    [apply wfb_wf; reflexivity | lia | | reflexivity].
  intros [|[|i]] Hi; [reflexivity | reflexivity | lia].
Defined.

(** ** Elimination and back-substitution together *)

(** X10. When [solve] completes, the state it returns holds a unit upper
    triangular matrix and in [C] the back-substitution of that very matrix
    and right-hand side: every [x[row]] is [b[row]] with the products of
    the row's entries right of the diagonal and the later unknowns
    subtracted. *)
Theorem solve_result n st st' :
  wf n st -> 1 <= n -> solve n st = Done st' ->
  wf n st' /\
  (forall i, i < n -> mget st' i i = one) /\
  (forall i j, j < i < n -> mget st' i j = zero) /\
  (forall row, row < n -> cget st' row = back_sub_row st' (C st') n row).
Proof.
  intros Hwf Hn Hs. unfold solve in Hs.
  destruct (computeGauss n st) as [st1| |] eqn:Hrun; [|done..].
  simpl in Hs. injection Hs as <-.
  destruct (gauss_upto_triangular n n st st1 Hwf ltac:(lia) Hrun)
    as (Hw1 & Hdiag & Hlow).
  destruct (solveGauss_rows n st1 Hw1 Hn) as (Hw & HM & HB & Hx).
  assert (Hget : forall i j, mget (solveGauss n st1) i j = mget st1 i j).
  { intros i j. unfold mget. by rewrite HM. }
  split; [done|]. split; [|split].
  - intros i Hi. rewrite Hget. by apply Hdiag.
  - intros i j Hij. rewrite Hget. apply Hlow; lia.
  - intros row Hrow. rewrite Hx by done.
    unfold back_sub_row, mget, bget. by rewrite HM, HB.
Qed.

Lemma solve_result_witness :
  let st := initMatrix 3 (uniform_buffers S754_nan 3) in
  exists st', solve 3 st = Done st' /\
    wf 3 st' /\
    (forall i, i < 3 -> mget st' i i = one) /\
    (forall i j, j < i < 3 -> mget st' i j = zero) /\
    (forall row, row < 3 -> cget st' row = back_sub_row st' (C st') 3 row).
Proof.
  eexists. split; [vm_compute; reflexivity|].
  apply (solve_result 3 (initMatrix 3 (uniform_buffers S754_nan 3)));
    [apply wfb_wf; reflexivity | lia | vm_compute; reflexivity].
Defined.
